(** * Chord counting (cmd/count_chords.go): a shallow embedding

    The development follows the Go source: [normalizeChord] and
    [normalizeChordPart] are the two helper functions of the file, and the
    body of [CountChordsAction] is split into the per-line classifier, the
    table update and the report rendering.  Go strings are byte sequences;
    they are modelled as [list ascii].  The pieces of the Go standard library
    the program calls ([strings], [regexp], [sort], [fmt]) are modelled next
    to it, restricted to the way the program calls them. *)

From Stdlib Require Import ZArith Ascii String List Bool Lia DecimalString.
From Stdlib Require Import Permutation Sorted.
From Stdlib Require DecimalFacts DecimalPos DecimalZ.
From stdpp Require Import gmap strings list fin_maps.

Open Scope Z_scope.

(** ** Go strings *)

Abbreviation gostring := (list ascii).

(** A Go string literal. *)
Definition str (s : string) : gostring := list_ascii_of_string s.

Definition byte_eqb (a b : ascii) : bool := Ascii.eqb a b.

Definition code (c : ascii) : N := N_of_ascii c.

Module strings.

(** [strings.HasPrefix(s, prefix)] *)
Fixpoint HasPrefix (s prefix : gostring) : bool :=
  match prefix, s with
  | [], _ => true
  | p :: prefix', c :: s' => byte_eqb c p && HasPrefix s' prefix'
  | _ :: _, [] => false
  end.

(** [strings.HasSuffix(s, suffix)]:
    [len(s) >= len(suffix) && s[len(s)-len(suffix):] == suffix] *)
Definition HasSuffix (s suffix : gostring) : bool :=
  (length suffix <=? length s)%nat
  && bool_decide (drop (length s - length suffix) s = suffix).

(** [strings.Contains(s, substr)] for a one-byte [substr]. *)
Definition Contains (s : gostring) (sep : ascii) : bool :=
  existsb (byte_eqb sep) s.

(** [strings.Split(s, sep)] for a one-byte [sep]: the pieces between the
    occurrences of [sep], one more than there are occurrences. *)
Fixpoint Split (s : gostring) (sep : ascii) : list gostring :=
  match s with
  | [] => [[]]
  | c :: s' =>
      if byte_eqb c sep then [] :: Split s' sep
      else match Split s' sep with
           | [] => [[c]]
           | p :: ps => (c :: p) :: ps
           end
  end.

(** [strings.LastIndex(s, substr)]: the largest [i] with
    [s[i:i+len(substr)] == substr], or [-1].  [lastIndexFrom] tries the
    candidate positions [i, i-1, ..., 0]. *)
Fixpoint lastIndexFrom (s substr : gostring) (i : nat) : Z :=
  if bool_decide (take (length substr) (drop i s) = substr) then Z.of_nat i
  else match i with
       | O => -1
       | S i' => lastIndexFrom s substr i'
       end.

Definition LastIndex (s substr : gostring) : Z :=
  if (length substr <=? length s)%nat
  then lastIndexFrom s substr (length s - length substr)
  else -1.

(** [strings.ReplaceAll(s, old, new)] for one-byte [old] and [new]. *)
Definition ReplaceAll (s : gostring) (old new : ascii) : gostring :=
  map (fun c => if byte_eqb c old then new else c) s.

(** The two-byte UTF-8 encoding of a code point in [0x80, 0x7FF]. *)
Definition utf8_2 (r : N) : gostring :=
  [ascii_of_N (192 + r / 64); ascii_of_N (128 + r mod 64)]%N.

(** [unicode.ToUpper] on the code points up to U+00FF (simple case
    mappings of the Unicode character database). *)
Definition toUpperRune (r : N) : N :=
  (if (97 <=? r) && (r <=? 122) then r - 32
   else if r =? 181 then 924
   else if (224 <=? r) && (r <=? 254) && negb (r =? 247) then r - 32
   else if r =? 255 then 376
   else r)%N.

(** [strings.ToUpper(string(b))] for a byte [b].  The conversion
    [string(b)] yields the UTF-8 encoding of the code point [b], which is
    two bytes long from 0x80 on. *)
Definition ToUpperByte (b : ascii) : gostring :=
  let r := toUpperRune (code b) in
  (if r <? 128 then [ascii_of_N r] else utf8_2 r)%N.

(** White space as [unicode.IsSpace] has it, by UTF-8 encoding.  One byte:
    tab, LF, VT, FF, CR, space. *)
Definition isSpace1 (c : ascii) : bool :=
  let n := code c in ((9 <=? n) && (n <=? 13) || (n =? 32))%N.

(** Two bytes: U+0085 (C2 85) and U+00A0 (C2 A0). *)
Definition isSpace2 (c1 c2 : ascii) : bool :=
  ((code c1 =? 194) && ((code c2 =? 133) || (code c2 =? 160)))%N.

(** Three bytes: U+1680 (E1 9A 80), U+2000..U+200A (E2 80 80..8A),
    U+2028, U+2029, U+202F (E2 80 A8, A9, AF), U+205F (E2 81 9F) and
    U+3000 (E3 80 80). *)
Definition isSpace3 (c1 c2 c3 : ascii) : bool :=
  let a := code c1 in let b := code c2 in let c := code c3 in
  ((a =? 225) && (b =? 154) && (c =? 128)
   || (a =? 226) && (b =? 128)
      && ((128 <=? c) && (c <=? 138) || (c =? 168) || (c =? 169) || (c =? 175))
   || (a =? 226) && (b =? 129) && (c =? 159)
   || (a =? 227) && (b =? 128) && (c =? 128))%N.

(** [strings.TrimLeftFunc(s, unicode.IsSpace)]: drop white-space runes
    from the front, one encoded rune at a time. *)
Fixpoint trimLeft (s : gostring) : gostring :=
  match s with
  | [] => []
  | c1 :: s1 =>
      if isSpace1 c1 then trimLeft s1
      else match s1 with
           | [] => s
           | c2 :: s2 =>
               if isSpace2 c1 c2 then trimLeft s2
               else match s2 with
                    | [] => s
                    | c3 :: s3 => if isSpace3 c1 c2 c3 then trimLeft s3 else s
                    end
           end
  end.

(** The same from the back, on the reversed string: the bytes of a rune
    come last byte first. *)
Fixpoint trimLeftRev (s : gostring) : gostring :=
  match s with
  | [] => []
  | c1 :: s1 =>
      if isSpace1 c1 then trimLeftRev s1
      else match s1 with
           | [] => s
           | c2 :: s2 =>
               if isSpace2 c2 c1 then trimLeftRev s2
               else match s2 with
                    | [] => s
                    | c3 :: s3 => if isSpace3 c3 c2 c1 then trimLeftRev s3 else s
                    end
           end
  end.

(** [strings.TrimRightFunc(s, unicode.IsSpace)] *)
Definition trimRight (s : gostring) : gostring := rev (trimLeftRev (rev s)).

(** [strings.TrimSpace(s)] *)
Definition TrimSpace (s : gostring) : gostring := trimRight (trimLeft s).

(** [strings.Join(elems, sep)] *)
Fixpoint Join (elems : list gostring) (sep : gostring) : gostring :=
  match elems with
  | [] => []
  | [e] => e
  | e :: rest => e ++ sep ++ Join rest sep
  end.

End strings.

(** ** Regular expressions (package regexp)

    The two patterns of the program use literals, character classes,
    concatenation, alternation, [?], [\b] and [^]; there is no repetition.
    Go's engine returns, at the leftmost position where the pattern matches,
    the match a backtracking engine finds first.  [run] lists all the ways a
    pattern matches at a position, in the order backtracking tries them: the
    alternatives of [|] from left to right, and for [?] the operand before
    the empty string. *)

Module regexp.

Inductive regex : Type :=
| Eps                          (* the empty pattern *)
| Lit (c : ascii)              (* one literal byte *)
| Class (cs : list ascii)      (* [...] *)
| Cat (r1 r2 : regex)          (* r1 r2 *)
| Alt (r1 r2 : regex)          (* r1|r2 *)
| Opt (r : regex)              (* r? *)
| WordBoundary                 (* \b *)
| BeginText.                   (* ^ *)

(** The class [[lo-hi]]. *)
Definition range (lo hi : ascii) : list ascii :=
  map ascii_of_nat
    (seq (nat_of_ascii lo) (S (nat_of_ascii hi) - nat_of_ascii lo)).

(** A literal string. *)
Fixpoint lit (s : gostring) : regex :=
  match s with
  | [] => Eps
  | [c] => Lit c
  | c :: s' => Cat (Lit c) (lit s')
  end.

(** [r1|r2|...|rn] *)
Fixpoint alts (rs : list regex) : regex :=
  match rs with
  | [] => Class []
  | [r] => r
  | r :: rs' => Alt r (alts rs')
  end.

(** [r1 r2 ... rn] *)
Fixpoint cats (rs : list regex) : regex :=
  match rs with
  | [] => Eps
  | [r] => r
  | r :: rs' => Cat r (cats rs')
  end.

(** [\w] is [[0-9A-Za-z_]]; a byte from 0x80 on is never a word byte. *)
Definition isWordByte (c : ascii) : bool :=
  let n := code c in
  ((48 <=? n) && (n <=? 57) || (65 <=? n) && (n <=? 90)
   || (97 <=? n) && (n <=? 122) || (n =? 95))%N.

Definition isWord (c : option ascii) : bool :=
  match c with
  | Some c => isWordByte c
  | None => false
  end.

(** The byte before the position reached after reading [w]. *)
Definition prevAfter (prev : option ascii) (w : gostring) : option ascii :=
  match last w with
  | Some c => Some c
  | None => prev
  end.

(** [run r prev s]: the matches of [r] at the front of [s], where [prev]
    is the byte before [s] in the text ([None] at the start of the text).
    Each match is the text read and the text left, in priority order. *)
Fixpoint run (r : regex) (prev : option ascii) (s : gostring)
  : list (gostring * gostring) :=
  match r with
  | Eps => [([], s)]
  | Lit c =>
      match s with
      | x :: s' => if byte_eqb x c then [([x], s')] else []
      | [] => []
      end
  | Class cs =>
      match s with
      | x :: s' => if existsb (byte_eqb x) cs then [([x], s')] else []
      | [] => []
      end
  | Cat r1 r2 =>
      flat_map
        (fun m1 =>
           map (fun m2 => (fst m1 ++ fst m2, snd m2))
               (run r2 (prevAfter prev (fst m1)) (snd m1)))
        (run r1 prev s)
  | Alt r1 r2 => run r1 prev s ++ run r2 prev s
  | Opt r1 => run r1 prev s ++ [([], s)]
  | WordBoundary =>
      if xorb (isWord prev) (isWord (head s)) then [([], s)] else []
  | BeginText =>
      match prev with
      | None => [([], s)]
      | Some _ => []
      end
  end.

(** The preferred match at one position. *)
Definition matchAt (r : regex) (prev : option ascii) (s : gostring)
  : option (gostring * gostring) :=
  head (run r prev s).

(** [re.MatchString(s)]: is there a match at some position. *)
Fixpoint matchFrom (r : regex) (prev : option ascii) (s : gostring) : bool :=
  match matchAt r prev s with
  | Some _ => true
  | None =>
      match s with
      | [] => false
      | c :: s' => matchFrom r (Some c) s'
      end
  end.

Definition MatchString (r : regex) (s : gostring) : bool :=
  matchFrom r None s.

(** [re.FindAllString(s, -1)]: the successive leftmost matches, each
    search starting where the previous match ended.  The loop walks the
    text one position at a time: [skip] counts the bytes of the current
    match still to pass, and [adjacent] says that the position is the end
    of the previous match, where an empty match is not reported. *)
Fixpoint findAllFrom (r : regex) (prev : option ascii) (skip : nat)
         (adjacent : bool) (s : gostring) : list gostring :=
  match skip with
  | S k =>
      match s with
      | [] => []
      | c :: s' => findAllFrom r (Some c) k true s'
      end
  | O =>
      match matchAt r prev s with
      | None =>
          match s with
          | [] => []
          | c :: s' => findAllFrom r (Some c) 0 false s'
          end
      | Some ([], _) =>
          (if adjacent then [] else [[]])
          ++ match s with
             | [] => []
             | c :: s' => findAllFrom r (Some c) 0 false s'
             end
      | Some (w, _) =>
          w :: match s with
               | [] => []
               | c :: s' => findAllFrom r (Some c) (length w - 1) true s'
               end
      end
  end.

Definition FindAllString (r : regex) (s : gostring) : list gostring :=
  findAllFrom r None 0 false s.

(** The texts a pattern can read, whatever the assertions say. *)
Fixpoint lang (r : regex) : list gostring :=
  match r with
  | Eps => [[]]
  | Lit c => [[c]]
  | Class cs => map (fun c => [c]) cs
  | Cat r1 r2 =>
      flat_map (fun w1 => map (fun w2 => w1 ++ w2) (lang r2)) (lang r1)
  | Alt r1 r2 => lang r1 ++ lang r2
  | Opt r1 => lang r1 ++ [[]]
  | WordBoundary => [[]]
  | BeginText => [[]]
  end.

End regexp.

Import strings regexp.

(** ** The program *)

(** Line 60:
    [\b[A-G](?:#|b)?(?:m|maj7|add9|sus4|dim|aug|7|9|11|13|maj|m7|m9|aug7|dim7)?(?:/[A-G](?:#|b)?)?\b] *)
Definition accidental : regex := Opt (Alt (Lit "#") (Lit "b")).

Definition chordRegex : regex :=
  cats
    [ WordBoundary;
      Class (range "A" "G");
      accidental;
      Opt (alts (map (fun s => lit (str s))
                     ["m"; "maj7"; "add9"; "sus4"; "dim"; "aug"; "7"; "9";
                      "11"; "13"; "maj"; "m7"; "m9"; "aug7"; "dim7"]%string));
      Opt (cats [Lit "/"; Class (range "A" "G"); accidental]);
      WordBoundary ].

(** Line 63: [^[eBgdAE]\|] *)
Definition tablatureRegex : regex :=
  cats [BeginText; Class (str "eBgdAE"); Lit "|"].

(** Line 202: the suffix list of [normalizeChordPart]. *)
Definition suffixes : list gostring :=
  map str ["Maj"; "Maj7"; "m7"; "m9"; "m11"; "m13"; "add9"; "sus4"; "dim";
           "dim7"; "aug"; "aug7"; "7"; "9"; "11"; "13"]%string.

(** Lines 204-210: the loop over the suffixes.  At the first suffix the
    string ends with, the string becomes [chord[:index] + suffix] and the
    loop stops.  [LastIndex] is not negative there ([LastIndex_HasSuffix]),
    so the slice expression does not panic. *)
Fixpoint applySuffixes (sufs : list gostring) (chord : gostring) : gostring :=
  match sufs with
  | [] => chord
  | suffix :: sufs' =>
      if HasSuffix chord suffix then
        let index := LastIndex chord suffix in
        take (Z.to_nat index) chord ++ suffix
      else applySuffixes sufs' chord
  end.

(** Lines 191-213 *)
Definition normalizeChordPart (chord : gostring) : gostring :=
  match chord with
  | [] => []
  | c0 :: rest =>
      let chord := ToUpperByte c0 ++ rest in
      let chord := ReplaceAll chord "M" "m" in
      applySuffixes suffixes chord
  end.

(** Lines 162-188.  [parts[1]] exists when the string contains a slash
    ([Split_length]). *)
Definition normalizeChord (chord : gostring) : gostring :=
  let chord := TrimSpace chord in
  match chord with
  | [] => []
  | _ :: _ =>
      let '(chordPart, inversionPart) :=
        if Contains chord "/" then
          let parts := Split chord "/" in (nth 0 parts [], nth 1 parts [])
        else (chord, []) in
      let chordPart := normalizeChordPart chordPart in
      match inversionPart with
      | _ :: _ => chordPart ++ str "/" ++ normalizeChordPart inversionPart
      | [] => chordPart
      end
  end.

(** Go's [int] on a 64-bit platform: [x + 1] wraps around at [2^63]. *)
Definition maxInt : Z := 2 ^ 63 - 1.

Definition wrapInt (x : Z) : Z := (x + 2 ^ 63) mod 2 ^ 64 - 2 ^ 63.

(** Lines 109-111: [if normalizedChord != "" { chordCounts[normalizedChord]++ }].
    Reading an absent key gives 0. *)
Definition record (chordCounts : gmap gostring Z) (key : gostring)
  : gmap gostring Z :=
  match key with
  | [] => chordCounts
  | _ :: _ => <[key := wrapInt (default 0 (chordCounts !! key) + 1)]> chordCounts
  end.

(** Lines 95-103: the lines the scan passes over. *)
Definition skipLine (line : gostring) : bool :=
  HasPrefix line (str "{") || HasPrefix line (str "[")
  || MatchString tablatureRegex line.

(** The chord tokens taken from one line (lines 95-106). *)
Definition extractTokens (line : gostring) : list gostring :=
  if skipLine line then [] else FindAllString chordRegex line.

(** Lines 107-112: the loop over the matches of one line. *)
Definition countMatches (chordCounts : gmap gostring Z) (matches : list gostring)
  : gmap gostring Z :=
  fold_left (fun counts chord => record counts (normalizeChord chord))
            matches chordCounts.

(** The body of the scanner loop, lines 91-113. *)
Definition processLine (chordCounts : gmap gostring Z) (line : gostring)
  : gmap gostring Z :=
  countMatches chordCounts (extractTokens line).

(** One file: its lines in order. *)
Definition processFile (chordCounts : gmap gostring Z) (lines : list gostring)
  : gmap gostring Z :=
  fold_left processLine lines chordCounts.

(** The walk over the files, from the empty table of line 56. *)
Definition scanCorpus (files : list (list gostring)) : gmap gostring Z :=
  fold_left processFile files ∅.

(** Lines 128-131 *)
Record chordFrequency : Type := { Chord : gostring; Count : Z }.

(** Lines 133-136.  [range] over a map visits every entry once, in an order
    the language leaves open and that changes from one run to the next: the
    slice [frequencies] is an arbitrary enumeration of the table. *)
Definition entries (chordCounts : gmap gostring Z) : list chordFrequency :=
  map (fun kv => {| Chord := fst kv; Count := snd kv |}) (map_to_list chordCounts).

Definition rangeOrder (chordCounts : gmap gostring Z)
           (frequencies : list chordFrequency) : Prop :=
  Permutation frequencies (entries chordCounts).

(** Line 139: the comparison handed to [sort.Slice]. *)
Definition less (a b : chordFrequency) : bool := Count b <? Count a.

(** What [sort.Slice] promises: the elements are rearranged so that no
    element is [less] than one before it.  The sort is not stable. *)
Definition notBefore (a b : chordFrequency) : Prop := less b a = false.

Definition sortSlice (before after : list chordFrequency) : Prop :=
  Permutation before after /\ StronglySorted notBefore after.

(** On slices of at most 12 elements [sort.Slice] runs an insertion sort:
    each element moves toward the front while it is [less] than the element
    before it.  [insertBack] works on the reversed prefix. *)
Fixpoint insertBack (x : chordFrequency) (revPrefix : list chordFrequency)
  : list chordFrequency :=
  match revPrefix with
  | [] => [x]
  | y :: ys => if less x y then y :: insertBack x ys else x :: y :: ys
  end.

Definition insertionSort (data : list chordFrequency) : list chordFrequency :=
  rev (fold_left (fun revPrefix x => insertBack x revPrefix) data []).

(** [fmt.Sprintf("%d", n)] *)
Definition formatInt (n : Z) : gostring :=
  str (NilZero.string_of_int (Z.to_int n)).

(** Line 148: [fmt.Sprintf("%s: %d", freq.Chord, freq.Count)] *)
Definition formatEntry (freq : chordFrequency) : gostring :=
  Chord freq ++ str ": " ++ formatInt (Count freq).

(** Lines 143-150 *)
Definition outputLines (frequencies : list chordFrequency) : list gostring :=
  fold_left (fun lines freq => lines ++ [formatEntry freq]) frequencies
            [str "Chord Usage Statistics"; str "======================"].

(** Line 153: the bytes written to the output file. *)
Definition renderReport (frequencies : list chordFrequency) : gostring :=
  Join (outputLines frequencies) (str (String "010" EmptyString)).

(** A run of the command on a corpus: the table of the scan, an enumeration
    of it, the sorted slice and the text written. *)
Definition CountChordsAction (files : list (list gostring)) (output : gostring)
  : Prop :=
  exists frequencies sorted,
    rangeOrder (scanCorpus files) frequencies
    /\ sortSlice frequencies sorted
    /\ output = renderReport sorted.

(** ** The record calls of a scan *)

(** The keys one line hands to [record], in order (lines 106-108). *)
Definition lineKeys (line : gostring) : list gostring :=
  map normalizeChord (extractTokens line).

(** All the keys a scan hands to [record], in order. *)
Definition recordedKeys (files : list (list gostring)) : list gostring :=
  flat_map lineKeys (concat files).

(** The table after the first [i] record calls of a scan. *)
Definition tableAfter (files : list (list gostring)) (i : nat) : gmap gostring Z :=
  fold_left record (take i (recordedKeys files)) ∅.

(** How often a key occurs in a list of keys. *)
Definition occurrences (keys : list gostring) (k : gostring) : nat :=
  count_occ (fun x y : gostring => decide (x = y)) keys k.

(** In the reversed prefix of the insertion sort the order is turned
    around. *)
Definition notAfter (a b : chordFrequency) : Prop := notBefore b a.

(** ** Replacement (package regexp)

    [re.ReplaceAllString(src, repl)] for a [repl] without [$]: the text
    between the matches is copied and each match gives way to [repl].  The
    loop is the loop of [FindAllString]; an empty match at the end of the
    previous match is not replaced. *)
Fixpoint replaceAllFrom (r : regex) (repl : gostring) (prev : option ascii)
         (skip : nat) (adjacent : bool) (s : gostring) : gostring :=
  match skip with
  | S k =>
      match s with
      | [] => []
      | c :: s' => replaceAllFrom r repl (Some c) k true s'
      end
  | O =>
      match matchAt r prev s with
      | None =>
          match s with
          | [] => []
          | c :: s' => c :: replaceAllFrom r repl (Some c) 0 false s'
          end
      | Some ([], _) =>
          (if adjacent then [] else repl)
          ++ match s with
             | [] => []
             | c :: s' => c :: replaceAllFrom r repl (Some c) 0 false s'
             end
      | Some (w, _) =>
          repl ++ match s with
                  | [] => []
                  | c :: s' => replaceAllFrom r repl (Some c) (length w - 1) true s'
                  end
      end
  end.

Definition ReplaceAllString (r : regex) (src repl : gostring) : gostring :=
  replaceAllFrom r repl None 0 false src.

(** ** cmd/get_all.go: the song files *)

(** get_all.go, line 145: the class of [<], [>], [:], the double quote, [/], the
    backslash, [|], [?] and [*]. *)
Definition sanitizeChars : list ascii :=
  ["<"; ">"; ":"; "034"; "/"; "\"; "|"; "?"; "*"]%char.

Definition sanitizeRegex : regex := Class sanitizeChars.

(** get_all.go, lines 143-146 *)
Definition sanitizeFilename (name : gostring) : gostring :=
  ReplaceAllString sanitizeRegex name [].

(** get_all.go, line 128: [\[(/?tab|/?ch)\]] *)
Definition markerRegex : regex :=
  cats [ Lit "[";
         Alt (Cat (Opt (Lit "/")) (lit (str "tab")))
             (Cat (Opt (Lit "/")) (lit (str "ch")));
         Lit "]" ].

(** get_all.go, lines 128-129: the markers are taken out of the text. *)
Definition stripMarkers (content : gostring) : gostring :=
  ReplaceAllString markerRegex content [].

(** The fields of [ultimateguitar.TabResult] that [writeTabs] reads; the
    package is not part of the repository, the types are those of the
    format verbs of line 126. *)
Record TabResult : Type :=
  { ArtistName : gostring; SongName : gostring; Capo : Z; Content : gostring }.

Definition newline : gostring := str (String "010" EmptyString).

(** get_all.go, line 126: the header of the file. *)
Definition tabHeader (tab : TabResult) : gostring :=
  str "{artist: " ++ ArtistName tab ++ str "}" ++ newline
  ++ str "{title: " ++ SongName tab ++ str "}" ++ newline
  ++ str "{capo: " ++ formatInt (Capo tab) ++ str "}" ++ newline.

(** get_all.go, lines 121-129: the text written for one tab. *)
Definition tabContent (tab : TabResult) : gostring :=
  stripMarkers (tabHeader tab ++ Content tab).

(** get_all.go, line 131: the name of the file of one tab. *)
Definition tabFilename (tab : TabResult) : gostring :=
  sanitizeFilename (ArtistName tab) ++ str "-"
  ++ sanitizeFilename (SongName tab) ++ str ".crd".

(** ** cmd/count_chords.go: the choice of the files *)

(** [os.IsPathSeparator] *)
Inductive GOOS : Type := unix | windows.

Definition IsPathSeparator (goos : GOOS) (c : ascii) : bool :=
  match goos with
  | unix => byte_eqb c "/"
  | windows => byte_eqb c "\" || byte_eqb c "/"
  end.

(** [filepath.Ext(path)]: from the end of the path toward its start, the
    text from the first dot on, and nothing when a separator or the start
    comes first.  [extBack] reads the reversed path; [seen] is the text
    already passed. *)
Fixpoint extBack (goos : GOOS) (revPath seen : gostring) : gostring :=
  match revPath with
  | [] => []
  | c :: revPath' =>
      if IsPathSeparator goos c then []
      else if byte_eqb c "." then c :: seen
      else extBack goos revPath' (c :: seen)
  end.

Definition Ext (goos : GOOS) (path : gostring) : gostring :=
  extBack goos (rev path) [].

Definition isASCII (c : ascii) : bool := (code c <? 128)%N.

Definition lowerByte (c : ascii) : ascii :=
  let n := code c in
  if ((65 <=? n) && (n <=? 90))%N then ascii_of_N (n + 32) else c.

(** [strings.ToLower(s)] on a string of ASCII bytes.  On other strings the
    result comes from the Unicode tables, which are not modelled: [None]. *)
Definition ToLower (s : gostring) : option gostring :=
  if forallb isASCII s then Some (map lowerByte s) else None.

(** count_chords.go, line 78: [strings.ToLower(filepath.Ext(path)) != ".crd"] sends the file
    away.  An extension with a byte from 0x80 on never passes: no rune
    outside ASCII has the dot, c, r or d as its lower case, and a byte that
    is no valid UTF-8 becomes U+FFFD. *)
Definition isSongFile (goos : GOOS) (path : gostring) : bool :=
  match ToLower (Ext goos path) with
  | Some ext => bool_decide (ext = str ".crd")
  | None => false
  end.

(** ** Notions used in the statements *)

(** A pattern without [\b] and [^]. *)
Fixpoint noAssert (r : regex) : bool :=
  match r with
  | Eps | Lit _ | Class _ => true
  | Cat r1 r2 | Alt r1 r2 => noAssert r1 && noAssert r2
  | Opt r1 => noAssert r1
  | WordBoundary | BeginText => false
  end.

(** The pattern has the byte in a literal or in a class. *)
Fixpoint consumes (r : regex) (c : ascii) : bool :=
  match r with
  | Lit x => byte_eqb c x
  | Class cs => existsb (byte_eqb c) cs
  | Cat r1 r2 | Alt r1 r2 => consumes r1 c || consumes r2 c
  | Opt r1 => consumes r1 c
  | Eps | WordBoundary | BeginText => false
  end.

(** A pattern without [^]. *)
Fixpoint noBeginText (r : regex) : bool :=
  match r with
  | Cat r1 r2 | Alt r1 r2 => noBeginText r1 && noBeginText r2
  | Opt r1 => noBeginText r1
  | BeginText => false
  | Eps | Lit _ | Class _ | WordBoundary => true
  end.

(** A match before a piece of text, seen as a match in the whole text. *)
Definition extendRest (tail : gostring) (m : gostring * gostring)
  : gostring * gostring := (fst m, snd m ++ tail).

(** The four markers of [markerRegex]. *)
Definition markers : list gostring :=
  map str ["[tab]"; "[/tab]"; "[ch]"; "[/ch]"]%string.

(** The bytes [sanitizeFilename] keeps. *)
Definition keptInName (c : ascii) : bool :=
  negb (existsb (byte_eqb c) sanitizeChars).

(** The tokens a scan meets, in order. *)
Definition corpusTokens (files : list (list gostring)) : list gostring :=
  flat_map extractTokens (concat files).

(** The sum of the counts of a table. *)
Definition totalCount (chordCounts : gmap gostring Z) : Z :=
  map_fold (fun _ count total => count + total) 0 chordCounts.

(** The byte is not a word byte and not the slash. *)
Definition endsChord (c : ascii) : bool :=
  negb (isWordByte c) && negb (byte_eqb c "/").

(** Equality of two strings up to the case of the letters A to Z. *)
Definition equalFoldASCII (a b : gostring) : bool :=
  bool_decide (map lowerByte a = map lowerByte b).

(** ** Decimal numerals and pieces of a line *)

(** The byte is one of the digits 0 to 9. *)
Definition isDigit (c : ascii) : bool := ((48 <=? code c) && (code c <=? 57))%N.

(** The number a string of digits stands for, read from the left. *)
Definition decimalValue (digits : gostring) : Z :=
  fold_left (fun value c => 10 * value + (Z.of_N (code c) - 48)) digits 0.

(** The gaps and the tokens of a line, laid out in turn: a gap, a token, a
    gap, and so on, up to the last gap. *)
Fixpoint weave (gaps tokens : list gostring) : gostring :=
  match gaps, tokens with
  | g :: gaps', t :: tokens' => g ++ t ++ weave gaps' tokens'
  | g :: _, [] => g
  | [], _ => []
  end.

(** ** Facts about the string functions *)

Lemma byte_eqb_eq (a b : ascii) : byte_eqb a b = true <-> a = b.
Proof. unfold byte_eqb. apply Ascii.eqb_eq. Qed.

Lemma byte_eqb_neq (a b : ascii) : byte_eqb a b = false <-> a <> b.
Proof. unfold byte_eqb. apply Ascii.eqb_neq. Qed.

(** A string that ends with [suffix] is a prefix followed by [suffix]. *)
Lemma HasSuffix_split (s suffix : gostring) :
  HasSuffix s suffix = true ->
  s = take (length s - length suffix) s ++ suffix.
Proof.
  unfold HasSuffix. intros H.
  apply andb_true_iff in H as [_ H]. apply bool_decide_eq_true in H.
  set (n := (length s - length suffix)%nat) in *.
  rewrite <- H. symmetry. apply take_drop.
Qed.

(** The first candidate of [LastIndex] is the position of the suffix. *)
Lemma LastIndex_HasSuffix (s suffix : gostring) :
  HasSuffix s suffix = true ->
  LastIndex s suffix = Z.of_nat (length s - length suffix).
Proof.
  unfold HasSuffix, LastIndex. intros H.
  apply andb_true_iff in H as [Hlen H]. apply bool_decide_eq_true in H.
  rewrite Hlen.
  destruct (length s - length suffix)%nat eqn:E; simpl;
    rewrite H, firstn_all, bool_decide_eq_true_2; auto.
Qed.

(** The loop over the suffixes rebuilds the string it was given. *)
Lemma applySuffixes_id (sufs : list gostring) (chord : gostring) :
  applySuffixes sufs chord = chord.
Proof.
  induction sufs as [|suffix sufs IH]; simpl; [reflexivity|].
  destruct (HasSuffix chord suffix) eqn:E; [|exact IH].
  rewrite (LastIndex_HasSuffix _ _ E), Nat2Z.id.
  symmetry. apply HasSuffix_split, E.
Qed.

Lemma ReplaceAll_app (a b : gostring) (old new : ascii) :
  ReplaceAll (a ++ b) old new = ReplaceAll a old new ++ ReplaceAll b old new.
Proof. unfold ReplaceAll. apply map_app. Qed.

Lemma normalizeChordPart_cons (c0 : ascii) (rest : gostring) :
  normalizeChordPart (c0 :: rest) = ReplaceAll (ToUpperByte c0 ++ rest) "M" "m".
Proof. unfold normalizeChordPart. apply applySuffixes_id. Qed.

(** ** Facts about the matcher *)

(** Whatever [run] reads is at the front of the text and belongs to the
    language of the pattern. *)
Lemma run_sound (r : regex) :
  forall prev s w rest,
    In (w, rest) (run r prev s) -> s = w ++ rest /\ In w (lang r).
Proof.
  induction r as [|c|cs|r1 IH1 r2 IH2|r1 IH1 r2 IH2|r1 IH1| |];
    intros prev s w rest Hin; simpl in *.
  - destruct Hin as [[= <- <-]|[]]. auto.
  - destruct s as [|x s']; [easy|].
    destruct (byte_eqb x c) eqn:E; [|easy].
    apply byte_eqb_eq in E as ->.
    destruct Hin as [[= <- <-]|[]]. auto.
  - destruct s as [|x s']; [easy|].
    destruct (existsb (byte_eqb x) cs) eqn:E; [|easy].
    destruct Hin as [[= <- <-]|[]]. split; [reflexivity|].
    apply existsb_exists in E as (y & Hy & E).
    apply byte_eqb_eq in E as ->. apply in_map_iff. eauto.
  - apply in_flat_map in Hin as ([w1 s1] & H1 & Hin).
    apply in_map_iff in Hin as ([w2 s2] & [= <- <-] & H2). simpl in *.
    apply IH1 in H1 as [-> L1]. apply IH2 in H2 as [-> L2].
    split; [apply app_assoc|].
    apply in_flat_map. exists w1. split; [exact L1|].
    apply in_map_iff. eauto.
  - apply in_app_iff in Hin as [H|H].
    + apply IH1 in H as [-> L]. split; [reflexivity|]. apply in_app_iff. auto.
    + apply IH2 in H as [-> L]. split; [reflexivity|]. apply in_app_iff. auto.
  - apply in_app_iff in Hin as [H|[[= <- <-]|[]]].
    + apply IH1 in H as [-> L]. split; [reflexivity|]. apply in_app_iff. auto.
    + split; [reflexivity|]. apply in_app_iff. simpl. auto.
  - destruct (xorb (isWord prev) (isWord (head s))); [|easy].
    destruct Hin as [[= <- <-]|[]]. auto.
  - destruct prev; [easy|]. destruct Hin as [[= <- <-]|[]]. auto.
Qed.

Lemma matchAt_sound (r : regex) prev s w rest :
  matchAt r prev s = Some (w, rest) -> s = w ++ rest /\ In w (lang r).
Proof.
  unfold matchAt. intros H. apply (run_sound r prev s).
  destruct (run r prev s) as [|m ms]; [discriminate|].
  injection H as ->. left. reflexivity.
Qed.

(** Every string [FindAllString] returns is in the language of the
    pattern. *)
Lemma findAllFrom_lang (r : regex) :
  forall s prev skip adjacent x,
    In x (findAllFrom r prev skip adjacent s) -> In x (lang r).
Proof.
  induction s as [|c s IH]; intros prev skip adjacent x Hin.
  - destruct skip; simpl in Hin; [|easy].
    destruct (matchAt r prev []) as [[w rest]|] eqn:E; [|easy].
    apply matchAt_sound in E as [_ L].
    destruct w; [destruct adjacent|]; simpl in Hin.
    + easy.
    + destruct Hin as [<-|[]]; exact L.
    + destruct Hin as [<-|[]]; exact L.
  - destruct skip; simpl in Hin; [|eauto].
    destruct (matchAt r prev (c :: s)) as [[w rest]|] eqn:E; [|eauto].
    apply matchAt_sound in E as [_ L].
    destruct w; [destruct adjacent|]; simpl in Hin.
    + eauto.
    + destruct Hin as [<-|Hin]; eauto.
    + destruct Hin as [<-|Hin]; eauto.
Qed.

Lemma FindAllString_lang (r : regex) (s x : gostring) :
  In x (FindAllString r s) -> In x (lang r).
Proof. apply findAllFrom_lang. Qed.

(** ** The canonical form of a token is the token *)

Lemma normalizeChord_token_check :
  forallb (fun x => bool_decide (normalizeChord x = x)) (lang chordRegex) = true.
Proof. vm_compute. reflexivity. Qed.

Lemma normalizeChord_token (line x : gostring) :
  In x (FindAllString chordRegex line) -> normalizeChord x = x.
Proof.
  intros H. apply FindAllString_lang in H.
  pose proof normalizeChord_token_check as C.
  rewrite forallb_forall in C. apply C in H.
  apply bool_decide_eq_true in H. exact H.
Qed.

(** ** White space and slashes *)

(** The slash is no white space and no byte of a white-space rune. *)
Lemma slash_isSpace1 : isSpace1 "/" = false.
Proof. reflexivity. Qed.

Lemma slash_isSpace2_l (x : ascii) : isSpace2 "/" x = false.
Proof. reflexivity. Qed.

Lemma slash_isSpace2_r (x : ascii) : isSpace2 x "/" = false.
Proof. unfold isSpace2. simpl. apply andb_false_r. Qed.

Lemma slash_isSpace3_1 (x y : ascii) : isSpace3 "/" x y = false.
Proof. reflexivity. Qed.

Lemma slash_isSpace3_2 (x y : ascii) : isSpace3 x "/" y = false.
Proof.
  unfold isSpace3. simpl.
  destruct (code x =? 225)%N, (code x =? 226)%N, (code x =? 227)%N; reflexivity.
Qed.

Lemma slash_isSpace3_3 (x y : ascii) : isSpace3 x y "/" = false.
Proof.
  unfold isSpace3. simpl. rewrite !andb_false_r. reflexivity.
Qed.

Ltac slash_facts :=
  rewrite ?slash_isSpace1, ?slash_isSpace2_l, ?slash_isSpace2_r,
    ?slash_isSpace3_1, ?slash_isSpace3_2, ?slash_isSpace3_3.

(** Trimming on the left stops at a slash. *)
Lemma trimLeft_slash_bounded (n : nat) :
  forall a t : gostring, (length a <= n)%nat ->
    trimLeft (a ++ "/"%char :: t) = trimLeft a ++ "/"%char :: t.
Proof.
  induction n as [|n IH]; intros a t Hlen.
  - destruct a; [|simpl in Hlen; lia].
    destruct t as [|c2 [|c3 t]]; reflexivity.
  - destruct a as [|c1 [|c2 [|c3 a]]]; simpl in Hlen.
    + destruct t as [|c2 [|c3 t]]; reflexivity.
    + simpl. destruct (isSpace1 c1).
      * apply (IH [] t). simpl. lia.
      * slash_facts. destruct t; slash_facts; reflexivity.
    + simpl. destruct (isSpace1 c1).
      * apply (IH [c2] t). simpl. lia.
      * destruct (isSpace2 c1 c2).
        -- apply (IH [] t). simpl. lia.
        -- slash_facts. reflexivity.
    + simpl. destruct (isSpace1 c1).
      * apply (IH (c2 :: c3 :: a) t). simpl. lia.
      * destruct (isSpace2 c1 c2).
        -- apply (IH (c3 :: a) t). simpl. lia.
        -- destruct (isSpace3 c1 c2 c3); [|reflexivity].
           apply IH. lia.
Qed.

Lemma trimLeft_slash (a t : gostring) :
  trimLeft (a ++ "/"%char :: t) = trimLeft a ++ "/"%char :: t.
Proof. apply (trimLeft_slash_bounded (length a)). lia. Qed.

Lemma trimLeftRev_slash_bounded (n : nat) :
  forall a t : gostring, (length a <= n)%nat ->
    trimLeftRev (a ++ "/"%char :: t) = trimLeftRev a ++ "/"%char :: t.
Proof.
  induction n as [|n IH]; intros a t Hlen.
  - destruct a; [|simpl in Hlen; lia].
    destruct t as [|c2 [|c3 t]]; simpl; slash_facts; reflexivity.
  - destruct a as [|c1 [|c2 [|c3 a]]]; simpl in Hlen.
    + destruct t as [|c2 [|c3 t]]; simpl; slash_facts; reflexivity.
    + simpl. destruct (isSpace1 c1).
      * apply (IH [] t). simpl. lia.
      * slash_facts. destruct t; slash_facts; reflexivity.
    + simpl. destruct (isSpace1 c1).
      * apply (IH [c2] t). simpl. lia.
      * destruct (isSpace2 c2 c1).
        -- apply (IH [] t). simpl. lia.
        -- slash_facts. reflexivity.
    + simpl. destruct (isSpace1 c1).
      * apply (IH (c2 :: c3 :: a) t). simpl. lia.
      * destruct (isSpace2 c2 c1).
        -- apply (IH (c3 :: a) t). simpl. lia.
        -- destruct (isSpace3 c3 c2 c1); [|reflexivity].
           apply IH. lia.
Qed.

(** Trimming on the right stops at a slash. *)
Lemma trimRight_slash (a t : gostring) :
  trimRight (a ++ "/"%char :: t) = a ++ "/"%char :: trimRight t.
Proof.
  unfold trimRight.
  replace (rev (a ++ "/"%char :: t)) with (rev t ++ "/"%char :: rev a).
  - rewrite (trimLeftRev_slash_bounded (length (rev t))) by lia.
    rewrite rev_app_distr. simpl. rewrite rev_involutive, <- app_assoc.
    reflexivity.
  - rewrite rev_app_distr. simpl. rewrite <- app_assoc. reflexivity.
Qed.

Lemma TrimSpace_slash (a t : gostring) :
  TrimSpace (a ++ "/"%char :: t) = trimLeft a ++ "/"%char :: trimRight t.
Proof. unfold TrimSpace. rewrite trimLeft_slash. apply trimRight_slash. Qed.

(** [trimLeft] returns an end piece of its argument. *)
Lemma trimLeft_suffix_bounded (n : nat) :
  forall a : gostring, (length a <= n)%nat -> exists p, a = p ++ trimLeft a.
Proof.
  induction n as [|n IH]; intros a Hlen.
  - destruct a; [|simpl in Hlen; lia]. exists []. reflexivity.
  - destruct a as [|c1 s1]; [exists []; reflexivity|]. simpl in Hlen. simpl.
    destruct (isSpace1 c1).
    { destruct (IH s1) as [p Hp]; [lia|]. exists (c1 :: p). simpl. congruence. }
    destruct s1 as [|c2 s2]; [exists []; reflexivity|]. simpl in Hlen.
    destruct (isSpace2 c1 c2).
    { destruct (IH s2) as [p Hp]; [lia|]. exists (c1 :: c2 :: p). simpl. congruence. }
    destruct s2 as [|c3 s3]; [exists []; reflexivity|]. simpl in Hlen.
    destruct (isSpace3 c1 c2 c3); [|exists []; reflexivity].
    destruct (IH s3) as [p Hp]; [lia|]. exists (c1 :: c2 :: c3 :: p). simpl. congruence.
Qed.

Lemma Contains_app (a b : gostring) (sep : ascii) :
  Contains (a ++ b) sep = Contains a sep || Contains b sep.
Proof. unfold Contains. apply existsb_app. Qed.

Lemma Contains_trimLeft (a : gostring) (sep : ascii) :
  Contains a sep = false -> Contains (trimLeft a) sep = false.
Proof.
  destruct (trimLeft_suffix_bounded (length a) a) as [p Hp]; [lia|].
  intros H. rewrite Hp, Contains_app in H.
  apply orb_false_iff in H as [_ H]. exact H.
Qed.

Lemma Contains_slash (a t : gostring) :
  Contains (a ++ "/"%char :: t) "/" = true.
Proof. rewrite Contains_app. simpl. apply orb_true_r. Qed.

(** [Split] cuts at the first separator. *)
Lemma Split_first (a t : gostring) (sep : ascii) :
  Contains a sep = false -> Split (a ++ sep :: t) sep = a :: Split t sep.
Proof.
  induction a as [|c a IH]; simpl; intros H.
  - unfold byte_eqb. rewrite Ascii.eqb_refl. reflexivity.
  - apply orb_false_iff in H as [Hc H]. rewrite (IH H).
    replace (byte_eqb c sep) with false; [reflexivity|].
    symmetry. apply byte_eqb_neq. apply byte_eqb_neq in Hc. congruence.
Qed.

(** A string with a separator splits into two parts at least, so that
    [parts[1]] is in range. *)
Lemma Split_length (s : gostring) (sep : ascii) :
  Contains s sep = true -> (2 <= length (Split s sep))%nat.
Proof.
  induction s as [|c s IH]; simpl; [discriminate|]. intros H.
  assert (Hne : forall x, (1 <= length (Split x sep))%nat).
  { intros x. destruct x as [|y x]; simpl; [lia|].
    destruct (byte_eqb y sep); simpl; [lia|].
    destruct (Split x sep); simpl; lia. }
  destruct (byte_eqb c sep) eqn:E; simpl.
  - specialize (Hne s). lia.
  - apply orb_true_iff in H as [H|H].
    + apply byte_eqb_eq in H. apply byte_eqb_neq in E. congruence.
    + specialize (IH H). destruct (Split s sep); simpl in *; lia.
Qed.

Lemma Split_no_sep (a : gostring) (sep : ascii) :
  Contains a sep = false -> Split a sep = [a].
Proof.
  induction a as [|c a IH]; simpl; intros H; [reflexivity|].
  apply orb_false_iff in H as [Hc H]. rewrite (IH H).
  replace (byte_eqb c sep) with false; [reflexivity|].
  symmetry. apply byte_eqb_neq. apply byte_eqb_neq in Hc. congruence.
Qed.

(** ** The frequency table *)

Lemma wrapInt_small (x : Z) : 0 <= x <= maxInt -> wrapInt x = x.
Proof.
  unfold wrapInt, maxInt. intros H. rewrite Z.mod_small; lia.
Qed.

Lemma wrapInt_succ (x : Z) : wrapInt (wrapInt x + 1) = wrapInt (x + 1).
Proof.
  unfold wrapInt.
  replace ((x + 2 ^ 63) mod 2 ^ 64 - 2 ^ 63 + 1 + 2 ^ 63)
    with ((x + 2 ^ 63) mod 2 ^ 64 + 1) by lia.
  rewrite Zplus_mod_idemp_l. f_equal. f_equal. lia.
Qed.

Lemma fold_left_concat {A B} (f : A -> B -> A) (ls : list (list B)) (a : A) :
  fold_left f (concat ls) a = fold_left (fun a l => fold_left f l a) ls a.
Proof.
  revert a. induction ls as [|l ls IH]; intros a; simpl; [reflexivity|].
  rewrite fold_left_app. apply IH.
Qed.

Lemma fold_left_flat_map {A B C} (f : A -> C -> A) (g : B -> list C)
      (l : list B) (a : A) :
  fold_left f (flat_map g l) a = fold_left (fun a x => fold_left f (g x) a) l a.
Proof.
  revert a. induction l as [|x l IH]; intros a; simpl; [reflexivity|].
  rewrite fold_left_app. apply IH.
Qed.

Lemma countMatches_record (m : gmap gostring Z) (matches : list gostring) :
  countMatches m matches = fold_left record (map normalizeChord matches) m.
Proof.
  unfold countMatches. revert m.
  induction matches as [|x l IH]; intros m; simpl; [reflexivity|]. apply IH.
Qed.

Lemma processLine_record (m : gmap gostring Z) (line : gostring) :
  processLine m line = fold_left record (lineKeys line) m.
Proof. apply countMatches_record. Qed.

(** The scan is the sequence of its record calls. *)
Lemma scanCorpus_record (files : list (list gostring)) :
  scanCorpus files = fold_left record (recordedKeys files) ∅.
Proof.
  unfold scanCorpus, recordedKeys, processFile.
  rewrite fold_left_flat_map, fold_left_concat.
  generalize (∅ : gmap gostring Z).
  induction files as [|f files IH]; intros m; simpl; [reflexivity|].
  rewrite <- IH. f_equal.
  revert m. induction f as [|l f IHf]; intros m; simpl; [reflexivity|].
  rewrite <- IHf. f_equal. apply processLine_record.
Qed.

(** [record] never stores the empty key. *)
Lemma record_lookup_nil (keys : list gostring) (m : gmap gostring Z) :
  m !! ([] : gostring) = None -> fold_left record keys m !! ([] : gostring) = None.
Proof.
  revert m. induction keys as [|x keys IH]; intros m H; simpl; [exact H|].
  apply IH. destruct x; simpl; [exact H|]. rewrite lookup_insert_ne; easy.
Qed.

(** The stored count of a key is the number of its occurrences, wrapped. *)
Lemma record_lookup (keys : list gostring) (k : gostring) :
  k <> [] ->
  fold_left record keys ∅ !! k =
    match occurrences keys k with
    | O => None
    | S n => Some (wrapInt (Z.of_nat (S n)))
    end.
Proof.
  intros Hk. unfold occurrences.
  induction keys as [|x keys IH] using rev_ind; [reflexivity|].
  rewrite fold_left_app, count_occ_app. simpl.
  set (m := fold_left record keys ∅) in *.
  set (n := count_occ _ keys k) in *.
  destruct x as [|c x]; simpl.
  - destruct (decide ([] = k)); [congruence|]. rewrite Nat.add_0_r. exact IH.
  - destruct (decide (c :: x = k)) as [->|Hne].
    + rewrite lookup_insert_eq, IH. replace (n + 1)%nat with (S n) by lia.
      f_equal. destruct n as [|n]; [reflexivity|]. simpl default.
      rewrite wrapInt_succ. f_equal. lia.
    + rewrite lookup_insert_ne by exact Hne. rewrite Nat.add_0_r. exact IH.
Qed.

Lemma occurrences_le (keys : list gostring) (k : gostring) :
  (occurrences keys k <= length keys)%nat.
Proof. apply count_occ_bound. Qed.

(** Below the overflow the stored count is the number of occurrences. *)
Lemma record_default (keys : list gostring) (k : gostring) :
  Z.of_nat (length keys) <= maxInt -> k <> [] ->
  default 0 (fold_left record keys ∅ !! k) = Z.of_nat (occurrences keys k).
Proof.
  intros Hlen Hk. rewrite record_lookup by exact Hk.
  pose proof (occurrences_le keys k).
  destruct (occurrences keys k); [reflexivity|]. simpl default.
  apply wrapInt_small. lia.
Qed.

(** One record call below the overflow: the count of the key goes up by
    one and the other counts stay. *)
Lemma record_step (keys : list gostring) (key : gostring) :
  Z.of_nat (length keys) < maxInt -> key <> [] ->
  record (fold_left record keys ∅) key !! key
  = Some (default 0 (fold_left record keys ∅ !! key) + 1).
Proof.
  intros Hlen Hk. destruct key as [|c key]; [congruence|].
  unfold record. rewrite lookup_insert_eq. f_equal.
  rewrite record_default by (lia || easy).
  pose proof (occurrences_le keys (c :: key)).
  apply wrapInt_small. lia.
Qed.

Lemma record_other (m : gmap gostring Z) (key k : gostring) :
  k <> key -> record m key !! k = m !! k.
Proof.
  intros Hne. destruct key; simpl; [reflexivity|].
  apply lookup_insert_ne. congruence.
Qed.

Lemma tableAfter_step (files : list (list gostring)) (n : nat) (key : gostring) :
  recordedKeys files !! n = Some key ->
  tableAfter files (S n) = record (tableAfter files n) key.
Proof.
  intros H. unfold tableAfter.
  rewrite (take_S_r _ _ _ H), fold_left_app. reflexivity.
Qed.

Lemma tableAfter_end (files : list (list gostring)) (n : nat) :
  (length (recordedKeys files) <= n)%nat ->
  tableAfter files n = scanCorpus files.
Proof.
  intros H. unfold tableAfter. rewrite take_ge by exact H.
  symmetry. apply scanCorpus_record.
Qed.

(** ** Order of the record calls *)

Lemma record_comm (m : gmap gostring Z) (k1 k2 : gostring) :
  record (record m k1) k2 = record (record m k2) k1.
Proof.
  destruct k1 as [|c1 k1], k2 as [|c2 k2]; try reflexivity.
  destruct (decide (c1 :: k1 = c2 :: k2)) as [->|Hne]; [reflexivity|].
  unfold record.
  rewrite !lookup_insert_ne by congruence.
  apply insert_insert_ne. congruence.
Qed.

Lemma fold_record_comm (keys : list gostring) (m : gmap gostring Z) (k : gostring) :
  fold_left record keys (record m k) = record (fold_left record keys m) k.
Proof.
  revert m. induction keys as [|x keys IH]; intros m; simpl; [reflexivity|].
  rewrite record_comm. apply IH.
Qed.

(** The table does not depend on the order of the record calls. *)
Lemma fold_record_Permutation (keys1 keys2 : list gostring) :
  Permutation keys1 keys2 ->
  forall m, fold_left record keys1 m = fold_left record keys2 m.
Proof.
  induction 1 as [|x l1 l2 _ IH|x y l|l1 l2 l3 _ IH1 _ IH2]; intros m; simpl.
  - reflexivity.
  - apply IH.
  - rewrite record_comm. reflexivity.
  - rewrite IH1. apply IH2.
Qed.

Lemma scanCorpus_Permutation (files1 files2 : list (list gostring)) :
  Permutation (concat files1) (concat files2) ->
  scanCorpus files1 = scanCorpus files2.
Proof.
  intros H. rewrite !scanCorpus_record.
  apply fold_record_Permutation. unfold recordedKeys.
  apply Permutation_flat_map, H.
Qed.

(** ** Sorting *)

Lemma notBefore_le (a b : chordFrequency) : notBefore a b <-> Count b <= Count a.
Proof. unfold notBefore, less. apply Z.ltb_ge. Qed.

Lemma insertBack_Permutation (x : chordFrequency) (l : list chordFrequency) :
  Permutation (x :: l) (insertBack x l).
Proof.
  induction l as [|y l IH]; simpl; [reflexivity|].
  destruct (less x y); [|reflexivity].
  rewrite perm_swap. apply perm_skip, IH.
Qed.

Lemma insertBack_sorted (x : chordFrequency) (l : list chordFrequency) :
  StronglySorted notAfter l -> StronglySorted notAfter (insertBack x l).
Proof.
  induction l as [|y l IH]; simpl; intros H.
  - repeat constructor.
  - apply StronglySorted_inv in H as [Hl Hy].
    destruct (less x y) eqn:E.
    + constructor; [apply IH, Hl|].
      rewrite <- (insertBack_Permutation x l).
      constructor; [|exact Hy].
      unfold notAfter. apply notBefore_le.
      unfold less in E. apply Z.ltb_lt in E. lia.
    + constructor; [constructor; assumption|].
      assert (Hxy : notAfter x y) by exact E.
      constructor; [exact Hxy|].
      eapply Forall_impl; [exact Hy|]. intros z Hz.
      unfold notAfter in *. rewrite notBefore_le in *. lia.
Qed.

Lemma StronglySorted_rev_notAfter (l : list chordFrequency) :
  StronglySorted notAfter l -> StronglySorted notBefore (rev l).
Proof.
  induction l as [|y l IH]; simpl; intros H; [constructor|].
  apply StronglySorted_inv in H as [Hl Hy].
  specialize (IH Hl).
  assert (G : forall l1 : list chordFrequency,
             StronglySorted notBefore l1 -> Forall (fun z => notBefore z y) l1 ->
             StronglySorted notBefore (l1 ++ [y])).
  { induction l1 as [|z l1 IH1]; simpl; intros S F.
    - repeat constructor.
    - apply StronglySorted_inv in S as [S1 S2].
      apply Forall_cons_iff in F as [F1 F2].
      constructor; [apply IH1; assumption|].
      apply Forall_app. split; [exact S2|]. repeat constructor. exact F1. }
  apply G; [exact IH|].
  apply List.Forall_forall. intros z Hz. apply in_rev in Hz.
  rewrite List.Forall_forall in Hy. apply Hy in Hz. exact Hz.
Qed.

(** The insertion sort meets the contract of [sort.Slice]. *)
Lemma insertionSort_sortSlice (data : list chordFrequency) :
  sortSlice data (insertionSort data).
Proof.
  unfold insertionSort.
  assert (G : forall acc : list chordFrequency,
             StronglySorted notAfter acc ->
             Permutation (rev acc ++ data)
               (rev (fold_left (fun p x => insertBack x p) data acc))
             /\ StronglySorted notAfter
                  (fold_left (fun p x => insertBack x p) data acc)).
  { induction data as [|x data IH]; intros acc Hacc; simpl.
    - rewrite app_nil_r. split; [reflexivity|exact Hacc].
    - destruct (IH (insertBack x acc)) as [P S];
        [apply insertBack_sorted, Hacc|].
      split; [|exact S]. rewrite <- P.
      rewrite <- (Permutation_rev (insertBack x acc)).
      rewrite <- (insertBack_Permutation x acc).
      rewrite <- (Permutation_rev acc).
      symmetry. apply Permutation_middle. }
  destruct (G []) as [P S]; [constructor|].
  split; [exact P|]. apply StronglySorted_rev_notAfter, S.
Qed.

(** A list of numbers has one descending arrangement. *)
Lemma descending_unique (l1 : list Z) :
  forall l2, StronglySorted Z.ge l1 -> StronglySorted Z.ge l2 ->
             Permutation l1 l2 -> l1 = l2.
Proof.
  induction l1 as [|x l1 IH]; intros l2 S1 S2 P.
  - apply Permutation_nil in P as ->. reflexivity.
  - destruct l2 as [|y l2];
      [apply Permutation_sym, Permutation_nil in P; discriminate|].
    apply StronglySorted_inv in S1 as [S1 F1].
    apply StronglySorted_inv in S2 as [S2 F2].
    rewrite List.Forall_forall in F1, F2.
    assert (Hxy : x = y).
    { assert (Hx : In x (y :: l2)) by (apply (Permutation_in _ P); left; reflexivity).
      assert (Hy : In y (x :: l1))
        by (apply (Permutation_in _ (Permutation_sym P)); left; reflexivity).
      destruct Hx as [->|Hx]; [reflexivity|].
      destruct Hy as [->|Hy]; [reflexivity|].
      apply F2 in Hx. apply F1 in Hy. lia. }
    subst y. f_equal. apply IH; [exact S1|exact S2|].
    apply Permutation_cons_inv in P. exact P.
Qed.

Lemma sorted_counts (l : list chordFrequency) :
  StronglySorted notBefore l -> StronglySorted Z.ge (map Count l).
Proof.
  induction 1 as [|x l S IH F]; simpl; constructor; [exact IH|].
  apply List.Forall_forall. intros c Hc.
  apply in_map_iff in Hc as (y & <- & Hy).
  rewrite List.Forall_forall in F. apply F, notBefore_le in Hy. lia.
Qed.

(** Two sorted arrangements of the same entries have the same counts at
    every rank. *)
Lemma sorted_counts_unique (l1 l2 : list chordFrequency) :
  StronglySorted notBefore l1 -> StronglySorted notBefore l2 ->
  Permutation l1 l2 -> map Count l1 = map Count l2.
Proof.
  intros S1 S2 P. apply descending_unique.
  - apply sorted_counts, S1.
  - apply sorted_counts, S2.
  - apply Permutation_map, P.
Qed.

Lemma outputLines_acc (fs : list chordFrequency) (acc : list gostring) :
  fold_left (fun lines freq => lines ++ [formatEntry freq]) fs acc
  = acc ++ map formatEntry fs.
Proof.
  revert acc. induction fs as [|f fs IH]; intros acc; simpl.
  - symmetry. apply app_nil_r.
  - rewrite IH, <- app_assoc. reflexivity.
Qed.

Lemma outputLines_eq (fs : list chordFrequency) :
  outputLines fs
  = str "Chord Usage Statistics" :: str "======================"
      :: map formatEntry fs.
Proof. unfold outputLines. rewrite outputLines_acc. reflexivity. Qed.

Lemma StronglySorted_lookup {A} (R : A -> A -> Prop) (l : list A) :
  StronglySorted R l ->
  forall i j a b, (i < j)%nat -> l !! i = Some a -> l !! j = Some b -> R a b.
Proof.
  induction 1 as [|x l S IH F]; intros i j a b Hij Ha Hb; [discriminate|].
  destruct j as [|j]; [lia|]. simpl in Hb.
  destruct i as [|i]; simpl in Ha.
  - injection Ha as ->. rewrite List.Forall_forall in F. apply F.
    apply list_elem_of_In. eapply list_elem_of_lookup_2, Hb.
  - apply (IH i j); [lia|assumption|assumption].
Qed.

(** The command produces a report on every corpus. *)
Lemma CountChordsAction_runs (files : list (list gostring)) :
  CountChordsAction files
    (renderReport (insertionSort (entries (scanCorpus files)))).
Proof.
  exists (entries (scanCorpus files)), (insertionSort (entries (scanCorpus files))).
  split; [apply Permutation_refl|].
  split; [apply insertionSort_sortSlice|reflexivity].
Qed.


(** ** The claims *)

(** The tablature pattern starts with [^]: it matches at the start of the
    line or nowhere. *)
Lemma tablatureRegex_inside (s : gostring) :
  forall c, matchFrom tablatureRegex (Some c) s = false.
Proof.
  induction s as [|x s IH]; intros c; [reflexivity|]. simpl. apply IH.
Qed.

(** A line that starts with a letter A to G and a bar, and that is not
    skipped, gives that letter as its first token. *)
Lemma chordRegex_letter_bar (c : ascii) (rest : gostring) :
  In c (range "A" "G") ->
  exists more, FindAllString chordRegex (c :: "|"%char :: rest) = [c] :: more.
Proof.
  intros H. unfold range in H. simpl in H.
  repeat (destruct H as [<-|H]; [eexists; reflexivity|]). destruct H.
Qed.

(** C1.  The tablature pattern is [^[eBgdAE]\|]: a line that starts with
    one of e, B, g, d, A, E and a bar is skipped and gives no token, the
    line "e|--3--2--0--|" among them.  The upper-case letters G and D are
    not in the class: a line that starts with G or D and a bar is scanned
    and gives that letter as a chord token; "G|--3--2--0--|" gives the one
    token G. *)
Theorem C1_tablature_lines :
  extractTokens (str "G|--3--2--0--|") = [str "G"]
  /\ extractTokens (str "D|--3--2--0--|") = [str "D"]
  /\ Forall (fun c => forall rest,
               skipLine (c :: "|"%char :: rest) = false
               /\ exists more, extractTokens (c :: "|"%char :: rest) = [c] :: more)
            (str "GD")
  /\ extractTokens (str "e|--3--2--0--|") = []
  /\ Forall (fun c => forall rest, extractTokens (c :: "|"%char :: rest) = [])
            (str "eBgdAE").
Proof.
  split; [reflexivity|]. split; [reflexivity|].
  split; [|split; [reflexivity|repeat constructor]].
  assert (G : forall c rest, In c (str "GD") ->
            skipLine (c :: "|"%char :: rest) = false
            /\ exists more, extractTokens (c :: "|"%char :: rest) = [c] :: more).
  { intros c rest Hc.
    assert (Hs : skipLine (c :: "|"%char :: rest) = false).
    { unfold skipLine, MatchString.
      destruct Hc as [<-|[<-|[]]]; simpl; apply tablatureRegex_inside. }
    split; [exact Hs|]. unfold extractTokens. rewrite Hs.
    apply chordRegex_letter_bar.
    destruct Hc as [<-|[<-|[]]]; vm_compute; tauto. }
  repeat constructor; apply G; simpl; tauto.
Qed.

(** C2, as the code has it.  The loop over the suffixes looks for a suffix
    only at the very end of the string, so that it gives the string back
    unchanged: [normalizeChordPart] keeps every character after the first,
    with [M] turned into [m], and drops nothing at the end. *)
Theorem C2_trailing_characters_kept :
  forall (c0 : ascii) (body stray : gostring),
    applySuffixes suffixes (c0 :: body ++ stray) = c0 :: body ++ stray
    /\ normalizeChordPart (c0 :: body ++ stray)
       = normalizeChordPart (c0 :: body) ++ ReplaceAll stray "M" "m".
Proof.
  intros c0 body stray. split; [apply applySuffixes_id|].
  rewrite !normalizeChordPart_cons, !ReplaceAll_app, <- app_assoc.
  reflexivity.
Qed.

(** C2 fails on "C7x": "7" is in the suffix list and "x" follows it, and
    the canonical form is "C7x", not "C7". *)
Lemma C2_counterexample :
  In (str "7") suffixes
  /\ normalizeChord (str "C7x") = str "C7x"
  /\ normalizeChord (str "C7x") <> str "C7".
Proof.
  split; [vm_compute; tauto|]. split; [reflexivity|]. vm_compute. discriminate.
Qed.

(** C3.  The pattern has no alternative for m11 and m13: on the lines
    "Cm11" and "Cm13" the recognizer finds nothing and the table stays
    empty, and on no line does it return a token that ends with m11 or
    m13. *)
Theorem C3_m11_m13_not_recognized :
  FindAllString chordRegex (str "Cm11") = []
  /\ FindAllString chordRegex (str "Cm13") = []
  /\ scanCorpus [[str "Cm11"]] = ∅
  /\ scanCorpus [[str "Cm13"]] = ∅
  /\ forall line,
       Forall (fun x => HasSuffix x (str "m11") = false
                        /\ HasSuffix x (str "m13") = false)
              (FindAllString chordRegex line).
Proof.
  split; [reflexivity|]. split; [reflexivity|].
  split; [reflexivity|]. split; [reflexivity|].
  intros line. apply List.Forall_forall. intros x Hx.
  apply FindAllString_lang in Hx.
  assert (C : forallb (fun x => negb (HasSuffix x (str "m11"))
                                && negb (HasSuffix x (str "m13")))
                      (lang chordRegex) = true)
    by (vm_compute; reflexivity).
  rewrite forallb_forall in C. apply C in Hx.
  apply andb_true_iff in Hx as [H1 H2].
  apply negb_true_iff in H1. apply negb_true_iff in H2. auto.
Qed.

(** C4.  On every token the recognizer returns, normalizing twice gives
    what normalizing once gives. *)
Theorem C4_normalizeChord_idempotent :
  forall line x : gostring,
    In x (FindAllString chordRegex line) ->
    normalizeChord (normalizeChord x) = normalizeChord x.
Proof.
  intros line x H. rewrite (normalizeChord_token line x H).
  apply (normalizeChord_token line x H).
Qed.

Lemma C4_witness :
  In (str "C#m7/Bb") (FindAllString chordRegex (str "G C#m7/Bb"))
  /\ normalizeChord (normalizeChord (str "C#m7/Bb")) = normalizeChord (str "C#m7/Bb").
Proof.
  split.
  - vm_compute. auto.
  - apply (C4_normalizeChord_idempotent (str "G C#m7/Bb")). vm_compute. auto.
Defined.

(** Off the tokens of the recognizer the property can fail: white space
    before a trailing slash survives the first pass and not the second. *)
Remark normalizeChord_twice_off_tokens :
  normalizeChord (str "a /") = str "A "
  /\ normalizeChord (normalizeChord (str "a /")) = str "A".
Proof. split; reflexivity. Qed.

(** C7.  "CM" and "Cm" have the same canonical form, "Cm": behind a root
    letter A to G every [M] of the part becomes [m]. *)
Theorem C7_minor_marker :
  normalizeChord (str "CM") = normalizeChord (str "Cm")
  /\ normalizeChord (str "CM") = str "Cm"
  /\ Forall (fun root => forall rest,
               normalizeChordPart (root :: rest) = root :: ReplaceAll rest "M" "m")
            (range "A" "G").
Proof.
  split; [reflexivity|]. split; [reflexivity|].
  repeat constructor; intros rest; apply normalizeChordPart_cons.
Qed.

(** C10.  When the first two slashes of the string cut off the segments
    [a] and [b], the canonical form is made of [a], trimmed on the left, and
    [b] alone, whatever follows the second slash; an empty [b] gives the
    chord part alone.  A string with one slash, at its end, gives the chord
    part alone.  "C/E/G" becomes "C/E" and "C/" becomes "C". *)
Theorem C10_slashes :
  forall a b rest : gostring,
    Contains a "/" = false -> Contains b "/" = false ->
    normalizeChord (a ++ str "/" ++ b ++ str "/" ++ rest)
    = match b with
      | [] => normalizeChordPart (trimLeft a)
      | _ :: _ => normalizeChordPart (trimLeft a) ++ str "/" ++ normalizeChordPart b
      end
    /\ normalizeChord (a ++ str "/") = normalizeChordPart (trimLeft a)
    /\ normalizeChord (str "C/E/G") = str "C/E"
    /\ normalizeChord (str "C/") = str "C".
Proof.
  intros a b rest Ha Hb.
  pose proof (Contains_trimLeft a "/" Ha) as Ha'.
  split; [|split; [|split; reflexivity]].
  - unfold normalizeChord. change (str "/") with ["/"%char]. simpl app.
    rewrite TrimSpace_slash, trimRight_slash.
    destruct (trimLeft a ++ "/"%char :: b ++ "/"%char :: trimRight rest)
      as [|c s] eqn:E; [destruct (trimLeft a); discriminate|].
    rewrite <- E. rewrite Contains_slash.
    rewrite (Split_first _ _ _ Ha'), (Split_first _ _ _ Hb). simpl nth.
    destruct b; reflexivity.
  - unfold normalizeChord. change (str "/") with ["/"%char].
    rewrite TrimSpace_slash. change (trimRight []) with (@nil ascii).
    destruct (trimLeft a ++ ["/"%char]) as [|c s] eqn:E;
      [destruct (trimLeft a); discriminate|].
    rewrite <- E. rewrite Contains_slash.
    rewrite (Split_first _ _ _ Ha'). reflexivity.
Qed.

Lemma C10_witness :
  Contains (str " c") "/" = false
  /\ Contains (str "e ") "/" = false
  /\ normalizeChord (str " c" ++ str "/" ++ str "e " ++ str "/" ++ str "G/x ")
     = normalizeChordPart (trimLeft (str " c")) ++ str "/" ++ normalizeChordPart (str "e ")
  /\ normalizeChord (str " c" ++ str "/") = normalizeChordPart (trimLeft (str " c"))
  /\ normalizeChord (str "C/E/G") = str "C/E"
  /\ normalizeChord (str "C/") = str "C".
Proof.
  split; [reflexivity|]. split; [reflexivity|].
  exact (C10_slashes (str " c") (str "e ") (str "G/x ") eq_refl eq_refl).
Defined.

(** ** The entries of the report and the decimal form of a count *)

Lemma entries_lookup (m : gmap gostring Z) (f : chordFrequency) :
  In f (entries m) <-> m !! Chord f = Some (Count f).
Proof.
  unfold entries. rewrite in_map_iff. split.
  - intros ([k v] & <- & H). simpl.
    apply list_elem_of_In, elem_of_map_to_list in H. exact H.
  - intros H. exists (Chord f, Count f). split; [destruct f; reflexivity|].
    apply list_elem_of_In, elem_of_map_to_list. exact H.
Qed.

Lemma entries_keys (m : gmap gostring Z) :
  map Chord (entries m) = (map_to_list m).*1.
Proof.
  unfold entries. rewrite map_map. reflexivity.
Qed.

Lemma entries_length (m : gmap gostring Z) : length (entries m) = size m.
Proof. unfold entries. rewrite length_map. apply length_map_to_list. Qed.

Lemma string_of_uint_digits (d : Decimal.uint) :
  forallb isDigit (str (NilEmpty.string_of_uint d)) = true.
Proof. induction d; simpl; try reflexivity; exact IHd. Qed.

(** Reading the digits of a numeral from the left, with the value of the
    digits already read. *)
Lemma decimal_acc (d : Decimal.uint) :
  forall acc : positive,
    fold_left (fun value c => 10 * value + (Z.of_N (code c) - 48))
              (str (NilEmpty.string_of_uint d)) (Z.pos acc)
    = Z.pos (Pos.of_uint_acc d acc).
Proof.
  induction d; intros acc; simpl; try reflexivity;
    rewrite <- IHd; f_equal; lia.
Qed.

Lemma decimal_of_uint (d : Decimal.uint) :
  decimalValue (str (NilEmpty.string_of_uint d)) = Z.of_N (Pos.of_uint d).
Proof.
  unfold decimalValue.
  induction d; simpl; try reflexivity; try exact IHd;
    match goal with
    | |- fold_left _ _ ?z = _ =>
        let p := eval vm_compute in (Z.to_pos z) in
        change z with (Z.pos p); apply decimal_acc
    end.
Qed.

(** The numeral of a positive number does not start with the digit 0. *)
Lemma to_uint_head (p : positive) (d : Decimal.uint) :
  Pos.to_uint p <> Decimal.D0 d.
Proof.
  intros H.
  pose proof (DecimalPos.Unsigned.to_of (Pos.to_uint p)) as T.
  rewrite DecimalPos.Unsigned.of_to in T.
  change (N.to_uint (N.pos p)) with (Pos.to_uint p) in T.
  rewrite H in T. unfold Decimal.unorm in T.
  destruct (Decimal.nzhead (Decimal.D0 d)) eqn:E; try discriminate T.
  - injection T as ->. exact (DecimalPos.Unsigned.to_uint_nonzero p H).
  - exact (DecimalFacts.nzhead_nonzero _ _ E).
Qed.

(** [fmt.Sprintf("%d", n)] writes the decimal numeral of [n]. *)
Lemma formatInt_decimal (n : Z) :
  (0 <= n ->
   forallb isDigit (formatInt n) = true
   /\ decimalValue (formatInt n) = n
   /\ (forall rest, formatInt n = "0"%char :: rest -> n = 0 /\ rest = []))
  /\ (n < 0 -> formatInt n = "-"%char :: formatInt (- n)).
Proof.
  split.
  - intros Hn. destruct n as [|p|p]; [| |lia].
    + split; [reflexivity|]. split; [reflexivity|].
      intros rest H. injection H as <-. auto.
    + assert (E : formatInt (Z.pos p) = str (NilEmpty.string_of_uint (Pos.to_uint p))).
      { unfold formatInt. simpl. unfold NilZero.string_of_uint.
        pose proof (DecimalPos.Unsigned.to_uint_nonnil p).
        destruct (Pos.to_uint p); [congruence|reflexivity..]. }
      rewrite E. split; [apply string_of_uint_digits|]. split.
      * rewrite decimal_of_uint, DecimalPos.Unsigned.of_to. reflexivity.
      * intros rest H. exfalso.
        pose proof (to_uint_head p) as Hh.
        destruct (Pos.to_uint p); simpl in H; try discriminate H.
        exact (Hh _ eq_refl).
  - intros Hn. destruct n as [|p|p]; [lia|lia|]. reflexivity.
Qed.

Lemma entries_test :
  entries (scanCorpus [[str "C G Am F"; str "C C G"]])
  = [ {| Chord := str "Am"; Count := 1 |}; {| Chord := str "G"; Count := 2 |};
      {| Chord := str "F"; Count := 1 |}; {| Chord := str "C"; Count := 3 |} ].
Proof. vm_compute. reflexivity. Qed.

Theorem C5_frequency_table :
  forall frequencies sorted : list chordFrequency,
    rangeOrder (scanCorpus [[str "C G Am F"; str "C C G"]]) frequencies ->
    sortSlice frequencies sorted ->
    scanCorpus [[str "C G Am F"; str "C C G"]]
    = list_to_map [(str "C", 3); (str "G", 2); (str "Am", 1); (str "F", 1)]
    /\ (outputLines sorted
        = map str ["Chord Usage Statistics"; "======================";
                   "C: 3"; "G: 2"; "Am: 1"; "F: 1"]%string
        \/ outputLines sorted
           = map str ["Chord Usage Statistics"; "======================";
                      "C: 3"; "G: 2"; "F: 1"; "Am: 1"]%string).
Proof.
  intros frequencies sorted Hr [Hp Hs].
  split; [vm_compute; reflexivity|].
  unfold rangeOrder in Hr. rewrite entries_test in Hr.
  assert (P : Permutation sorted
     [ {| Chord := str "Am"; Count := 1 |}; {| Chord := str "G"; Count := 2 |};
      {| Chord := str "F"; Count := 1 |}; {| Chord := str "C"; Count := 3 |} ])
    by (rewrite <- Hp; exact Hr).
  clear Hr Hp frequencies.
  pose proof (insertionSort_sortSlice
     [ {| Chord := str "Am"; Count := 1 |}; {| Chord := str "G"; Count := 2 |};
      {| Chord := str "F"; Count := 1 |}; {| Chord := str "C"; Count := 3 |} ]) as [Pi Si].
  pose proof (sorted_counts_unique _ _ Hs Si (Permutation_trans P Pi)) as Hc.
  assert (N : List.NoDup sorted).
  { apply (Permutation_NoDup (Permutation_sym P)).
    repeat (constructor; [simpl; intuition discriminate|]).
    constructor. }
  pose proof (fun x => Permutation_in x P) as Hin.
  vm_compute in Hc.
  simpl in Hin.
  destruct sorted as [|a [|b [|c [|d [|e rest]]]]]; try discriminate Hc.
  injection Hc as Ca Cb Cc Cd.
  pose proof (Hin a (or_introl eq_refl)) as Ia.
  pose proof (Hin b (or_intror (or_introl eq_refl))) as Ib.
  pose proof (Hin c (or_intror (or_intror (or_introl eq_refl)))) as Ic.
  pose proof (Hin d (or_intror (or_intror (or_intror (or_introl eq_refl))))) as Id.
  clear Hin P Hs Pi Si.
  repeat (destruct Ia as [Ia|Ia]; [subst a; try discriminate Ca|]); [|destruct Ia].
  repeat (destruct Ib as [Ib|Ib]; [subst b; try discriminate Cb|]); [|destruct Ib].
  destruct Ic as [Ic|[Ic|[Ic|[Ic|[]]]]]; subst c; try discriminate Cc;
    (destruct Id as [Id|[Id|[Id|[Id|[]]]]]; subst d; try discriminate Cd).
  - exfalso. apply List.NoDup_cons_iff in N as [_ N].
    apply List.NoDup_cons_iff in N as [_ N].
    apply List.NoDup_cons_iff in N as [N _]. apply N. left. reflexivity.
  - left. vm_compute. reflexivity.
  - right. vm_compute. reflexivity.
  - exfalso. apply List.NoDup_cons_iff in N as [_ N].
    apply List.NoDup_cons_iff in N as [_ N].
    apply List.NoDup_cons_iff in N as [N _]. apply N. left. reflexivity.
Qed.

Lemma C5_witness :
  let table := scanCorpus [[str "C G Am F"; str "C C G"]] in
  rangeOrder table (entries table)
  /\ sortSlice (entries table) (insertionSort (entries table))
  /\ table = list_to_map [(str "C", 3); (str "G", 2); (str "Am", 1); (str "F", 1)]
  /\ (outputLines (insertionSort (entries table))
      = map str ["Chord Usage Statistics"; "======================";
                 "C: 3"; "G: 2"; "Am: 1"; "F: 1"]%string
      \/ outputLines (insertionSort (entries table))
         = map str ["Chord Usage Statistics"; "======================";
                    "C: 3"; "G: 2"; "F: 1"; "Am: 1"]%string).
Proof.
  intros table.
  assert (R : rangeOrder table (entries table)) by apply Permutation_refl.
  assert (S : sortSlice (entries table) (insertionSort (entries table)))
    by apply insertionSort_sortSlice.
  split; [exact R|]. split; [exact S|].
  exact (C5_frequency_table (entries table) (insertionSort (entries table)) R S).
Defined.

(** C8.  The text written is the header line, the separator line and one
    line [key: count] for each entry of the table, joined by newlines, and
    the counts do not go up from one entry line to the next.  The entry
    lines are those of the table: every key of the table has one line, with
    the count the table holds for it, and there is no other line.  The
    count is written as a decimal numeral: digits that stand for the count,
    without a leading zero, behind a minus sign when it is negative. *)
Theorem C8_report_shape :
  forall (files : list (list gostring)) (output : gostring),
    CountChordsAction files output ->
    exists sorted : list chordFrequency,
      output = Join (outputLines sorted) (str (String "010" EmptyString))
      /\ outputLines sorted
         = str "Chord Usage Statistics" :: str "======================"
             :: map (fun freq => Chord freq ++ str ": " ++ formatInt (Count freq))
                    sorted
      /\ Permutation sorted (entries (scanCorpus files))
      /\ (forall i j a b, (i < j)%nat ->
            sorted !! i = Some a -> sorted !! j = Some b -> Count b <= Count a)
      /\ List.NoDup (map Chord sorted)
      /\ length sorted = size (scanCorpus files)
      /\ (forall key count,
            In {| Chord := key; Count := count |} sorted
            <-> scanCorpus files !! key = Some count)
      /\ (forall n : Z,
            (0 <= n ->
             forallb isDigit (formatInt n) = true
             /\ decimalValue (formatInt n) = n
             /\ (forall rest, formatInt n = "0"%char :: rest -> n = 0 /\ rest = []))
            /\ (n < 0 -> formatInt n = "-"%char :: formatInt (- n))).
Proof.
  intros files output (frequencies & sorted & Hr & [Hp Hs] & ->).
  unfold rangeOrder in Hr.
  assert (P : Permutation sorted (entries (scanCorpus files)))
    by (rewrite <- Hp; exact Hr).
  exists sorted. split; [reflexivity|]. split; [apply outputLines_eq|].
  split; [exact P|]. split; [|split; [|split; [|split]]].
  - intros i j a b Hij Ha Hb. apply notBefore_le.
    exact (StronglySorted_lookup _ _ Hs i j a b Hij Ha Hb).
  - apply (Permutation_NoDup (Permutation_map Chord (Permutation_sym P))).
    rewrite entries_keys. apply NoDup_ListNoDup, NoDup_fst_map_to_list.
  - rewrite (Permutation_length P). apply entries_length.
  - intros key count. rewrite <- (entries_lookup (scanCorpus files)
                                   {| Chord := key; Count := count |}).
    split; intros H.
    + exact (Permutation_in _ P H).
    + exact (Permutation_in _ (Permutation_sym P) H).
  - exact formatInt_decimal.
Qed.

Lemma C8_witness :
  renderReport (insertionSort (entries (scanCorpus [[str "C G"; str "G"]])))
  = str "Chord Usage Statistics" ++ newline ++ str "======================"
    ++ newline ++ str "G: 2" ++ newline ++ str "C: 1"
  /\ exists sorted : list chordFrequency,
    renderReport (insertionSort (entries (scanCorpus [[str "C G"; str "G"]])))
    = Join (outputLines sorted) (str (String "010" EmptyString))
    /\ outputLines sorted
         = str "Chord Usage Statistics" :: str "======================"
             :: map (fun freq => Chord freq ++ str ": " ++ formatInt (Count freq))
                    sorted
      /\ Permutation sorted (entries (scanCorpus [[str "C G"; str "G"]]))
      /\ (forall i j a b, (i < j)%nat ->
            sorted !! i = Some a -> sorted !! j = Some b -> Count b <= Count a)
      /\ List.NoDup (map Chord sorted)
      /\ length sorted = size (scanCorpus [[str "C G"; str "G"]])
      /\ (forall key count,
            In {| Chord := key; Count := count |} sorted
            <-> scanCorpus [[str "C G"; str "G"]] !! key = Some count)
      /\ (forall n : Z,
            (0 <= n ->
             forallb isDigit (formatInt n) = true
             /\ decimalValue (formatInt n) = n
             /\ (forall rest, formatInt n = "0"%char :: rest -> n = 0 /\ rest = []))
            /\ (n < 0 -> formatInt n = "-"%char :: formatInt (- n))).
Proof.
  split; [vm_compute; reflexivity|].
  apply (C8_report_shape [[str "C G"; str "G"]]).
  apply CountChordsAction_runs.
Defined.

(** C6 fails on the one-line corpus "Am F": the table has two entries with
    the count 1, the loop over the map may visit them in either order, the
    sort leaves them where they are, and the two runs write different
    reports. *)
Lemma C6_counterexample :
  let am := {| Chord := str "Am"; Count := 1 |} in
  let f := {| Chord := str "F"; Count := 1 |} in
  rangeOrder (scanCorpus [[str "Am F"]]) [am; f]
  /\ rangeOrder (scanCorpus [[str "Am F"]]) [f; am]
  /\ insertionSort [am; f] = [am; f]
  /\ insertionSort [f; am] = [f; am]
  /\ CountChordsAction [[str "Am F"]] (renderReport [am; f])
  /\ CountChordsAction [[str "Am F"]] (renderReport [f; am])
  /\ renderReport [am; f] <> renderReport [f; am].
Proof.
  intros am f.
  assert (E : entries (scanCorpus [[str "Am F"]]) = [am; f])
    by (vm_compute; reflexivity).
  assert (R1 : rangeOrder (scanCorpus [[str "Am F"]]) [am; f])
    by (unfold rangeOrder; rewrite E; apply Permutation_refl).
  assert (R2 : rangeOrder (scanCorpus [[str "Am F"]]) [f; am])
    by (unfold rangeOrder; rewrite E; apply perm_swap).
  split; [exact R1|]. split; [exact R2|].
  split; [reflexivity|]. split; [reflexivity|].
  split; [|split].
  - exists [am; f], [am; f]. split; [exact R1|]. split; [|reflexivity].
    exact (insertionSort_sortSlice [am; f]).
  - exists [f; am], [f; am]. split; [exact R2|]. split; [|reflexivity].
    exact (insertionSort_sortSlice [f; am]).
  - vm_compute. discriminate.
Qed.

(** C6, as the code has it.  The table does not depend on the order in
    which the lines are read.  Two reports on the same lines list the same
    entries and show the same count at every rank; an entry that shares its
    count with no other entry is at the same rank in both.  The order among
    entries of equal count is left open. *)
Theorem C6_report_up_to_ties :
  forall (files1 files2 : list (list gostring))
         (frequencies1 sorted1 frequencies2 sorted2 : list chordFrequency),
    Permutation (concat files1) (concat files2) ->
    rangeOrder (scanCorpus files1) frequencies1 -> sortSlice frequencies1 sorted1 ->
    rangeOrder (scanCorpus files2) frequencies2 -> sortSlice frequencies2 sorted2 ->
    scanCorpus files1 = scanCorpus files2
    /\ Permutation sorted1 sorted2
    /\ map Count sorted1 = map Count sorted2
    /\ forall i a,
         sorted1 !! i = Some a ->
         (forall b, In b sorted1 -> Count b = Count a -> b = a) ->
         sorted2 !! i = Some a.
Proof.
  intros files1 files2 fs1 s1 fs2 s2 Hperm R1 [P1 S1] R2 [P2 S2].
  pose proof (scanCorpus_Permutation _ _ Hperm) as Ht.
  unfold rangeOrder in R1, R2. rewrite <- Ht in R2.
  assert (P : Permutation s1 s2).
  { rewrite <- P1, <- P2, R1, R2. reflexivity. }
  pose proof (sorted_counts_unique _ _ S1 S2 P) as Hc.
  split; [exact Ht|]. split; [exact P|]. split; [exact Hc|].
  intros i a Ha Huniq.
  assert (Hi : map Count s2 !! i = Some (Count a)).
  { rewrite <- Hc. change (map Count s1) with (Count <$> s1).
    rewrite list_lookup_fmap, Ha. reflexivity. }
  change (map Count s2) with (Count <$> s2) in Hi.
  rewrite list_lookup_fmap in Hi.
  destruct (s2 !! i) as [b|] eqn:Hb; [|discriminate].
  simpl in Hi. injection Hi as Hi. f_equal. apply Huniq; [|exact Hi].
  apply (Permutation_in _ (Permutation_sym P)).
  apply list_elem_of_In. eapply list_elem_of_lookup_2, Hb.
Qed.

Lemma C6_witness :
  let files1 := [[str "C G"]; [str "G"]] in
  let files2 := [[str "G"; str "C G"]] in
  let s1 := insertionSort (entries (scanCorpus files1)) in
  let s2 := insertionSort (entries (scanCorpus files2)) in
  Permutation (concat files1) (concat files2)
  /\ scanCorpus files1 = scanCorpus files2
  /\ Permutation s1 s2
  /\ map Count s1 = map Count s2
  /\ forall i a,
       s1 !! i = Some a ->
       (forall b, In b s1 -> Count b = Count a -> b = a) ->
       s2 !! i = Some a.
Proof.
  intros files1 files2 s1 s2.
  assert (P : Permutation (concat files1) (concat files2)) by apply perm_swap.
  split; [exact P|].
  exact (C6_report_up_to_ties files1 files2
           (entries (scanCorpus files1)) s1 (entries (scanCorpus files2)) s2
           P (Permutation_refl _) (insertionSort_sortSlice _)
           (Permutation_refl _) (insertionSort_sortSlice _)).
Defined.

(** C9.  [table i] is the table after [i] record calls of a scan that
    makes at most [maxInt] of them.  The scan starts from the empty table
    and each step is one call of [record]: nothing for the empty key, and
    for another key its count plus one, 1 when the key is new, the other
    keys as they were.  Every count is at least 1, so not negative, and no
    count goes down from one step to the next. *)
Theorem C9_record :
  forall (files : list (list gostring)) (n : nat) (k : gostring),
    Z.of_nat (length (recordedKeys files)) <= maxInt ->
    let table := tableAfter files in
    table 0%nat = ∅
    /\ table (length (recordedKeys files)) = scanCorpus files
    /\ (forall m : gmap gostring Z, record m [] = m)
    /\ (forall key, recordedKeys files !! n = Some key ->
          table (S n) = record (table n) key
          /\ (key <> [] ->
              table (S n) !! key = Some (default 0 (table n !! key) + 1))
          /\ (key <> [] -> table n !! key = None -> table (S n) !! key = Some 1)
          /\ (forall k', k' <> key -> table (S n) !! k' = table n !! k'))
    /\ (forall c, table n !! k = Some c -> 1 <= c)
    /\ 0 <= default 0 (table n !! k) <= default 0 (table (S n) !! k).
Proof.
  intros files n k Hmax table. subst table.
  set (keys := recordedKeys files) in *.
  assert (Hstep : forall key, keys !! n = Some key -> key <> [] ->
            tableAfter files (S n) !! key
            = Some (default 0 (tableAfter files n !! key) + 1)).
  { intros key Hkey Hne. rewrite (tableAfter_step _ _ _ Hkey).
    unfold tableAfter. apply record_step; [|exact Hne].
    apply lookup_lt_Some in Hkey. rewrite length_take. fold keys. lia. }
  assert (Hlen : forall i, Z.of_nat (length (take i keys)) <= maxInt).
  { intros i. rewrite length_take. lia. }
  assert (Hnonneg : forall i k0, 0 <= default 0 (tableAfter files i !! k0)).
  { intros i k0. unfold tableAfter. fold keys. destruct k0 as [|c k0].
    - rewrite record_lookup_nil by reflexivity. simpl. lia.
    - rewrite record_default by (apply Hlen || easy). lia. }
  split; [reflexivity|].
  split; [apply tableAfter_end; reflexivity|].
  split; [reflexivity|].
  split; [|split].
  - intros key Hkey. split; [apply tableAfter_step, Hkey|].
    split; [apply Hstep, Hkey|]. split.
    + intros Hne Hnone. rewrite (Hstep key Hkey Hne), Hnone. reflexivity.
    + intros k' Hk'. rewrite (tableAfter_step _ _ _ Hkey).
      apply record_other, Hk'.
  - intros c Hc. unfold tableAfter in Hc. fold keys in Hc.
    destruct k as [|c0 k].
    + rewrite record_lookup_nil in Hc by reflexivity. discriminate.
    + rewrite record_lookup in Hc by easy.
      pose proof (occurrences_le (take n keys) (c0 :: k)).
      specialize (Hlen n).
      destruct (occurrences (take n keys) (c0 :: k)) as [|o]; [discriminate|].
      injection Hc as <-. rewrite wrapInt_small; lia.
  - split; [apply Hnonneg|].
    destruct (keys !! n) as [key|] eqn:Hkey.
    + destruct (decide (k = key)) as [->|Hne].
      * destruct key as [|c0 key].
        -- rewrite (tableAfter_step _ _ _ Hkey). simpl. lia.
        -- rewrite (Hstep _ eq_refl) by easy. simpl. lia.
      * rewrite (tableAfter_step _ _ _ Hkey), record_other by exact Hne. lia.
    + apply lookup_ge_None in Hkey. unfold tableAfter. fold keys.
      rewrite !take_ge by lia. lia.
Qed.

Lemma C9_witness :
  let files := [[str "C G Am F"; str "C C G"]] in
  let table := tableAfter files in
  Z.of_nat (length (recordedKeys files)) <= maxInt
  /\ table 0%nat = ∅
  /\ table (length (recordedKeys files)) = scanCorpus files
  /\ (forall m : gmap gostring Z, record m [] = m)
  /\ (forall key, recordedKeys files !! 4%nat = Some key ->
        table 5%nat = record (table 4%nat) key
        /\ (key <> [] ->
            table 5%nat !! key = Some (default 0 (table 4%nat !! key) + 1))
        /\ (key <> [] -> table 4%nat !! key = None -> table 5%nat !! key = Some 1)
        /\ (forall k', k' <> key -> table 5%nat !! k' = table 4%nat !! k'))
  /\ (forall c, table 4%nat !! str "C" = Some c -> 1 <= c)
  /\ 0 <= default 0 (table 4%nat !! str "C") <= default 0 (table 5%nat !! str "C").
Proof.
  intros files table.
  assert (H : Z.of_nat (length (recordedKeys files)) <= maxInt)
    by (apply Z.leb_le; vm_compute; reflexivity).
  split; [exact H|].
  exact (C9_record files 4%nat (str "C") H).
Defined.

(** ** Further properties of the scan *)

Lemma HasPrefix_nil (s : gostring) : HasPrefix s [] = true.
Proof. destruct s; reflexivity. Qed.

(** X1.  The classifier looks at the first two bytes of the line only: a
    line is skipped when it starts with a brace or a bracket, or with one
    of e, B, g, d, A, E and then a bar.  Every other line, the empty line
    and the indented lines among them, is scanned. *)
Theorem X1_skipLine_first_bytes :
  forall line : gostring,
    skipLine line
    = match line with
      | [] => false
      | c :: rest =>
          byte_eqb c "{" || byte_eqb c "["
          || existsb (byte_eqb c) (str "eBgdAE")
             && match rest with
                | d :: _ => byte_eqb d "|"
                | [] => false
                end
      end.
Proof.
  intros [|c rest]; [reflexivity|].
  unfold skipLine, MatchString. cbn [HasPrefix str list_ascii_of_string].
  rewrite !HasPrefix_nil, !andb_true_r.
  destruct (byte_eqb c "{"); [reflexivity|].
  destruct (byte_eqb c "["); [reflexivity|]. cbn [orb].
  unfold matchFrom at 1. fold matchFrom. rewrite tablatureRegex_inside.
  remember (existsb (byte_eqb c) (str "eBgdAE")) as b eqn:Eb.
  unfold matchAt, tablatureRegex. cbn. cbn in Eb. rewrite <- Eb.
  destruct b; [|reflexivity]. cbn.
  destruct rest as [|d rest]; [reflexivity|]. cbn.
  destruct (byte_eqb d "|"); reflexivity.
Qed.

(** The words of the chord pattern, checked one by one. *)
Lemma chordRegex_token_check :
  forallb (fun x => match x with
                    | [] => false
                    | c :: _ => existsb (byte_eqb c) (range "A" "G")
                                && (length x <=? 9)%nat
                                && forallb (fun b => isWordByte b || byte_eqb b "#"
                                                     || byte_eqb b "/") x
                    end)
          (lang chordRegex) = true.
Proof. vm_compute. reflexivity. Qed.

Lemma token_shape (line x : gostring) :
    In x (FindAllString chordRegex line) ->
    exists c rest,
      x = c :: rest
      /\ In c (range "A" "G")
      /\ (length x <= 9)%nat
      /\ Forall (fun b => isWordByte b = true \/ b = "#"%char \/ b = "/"%char) x.
Proof.
  intros H. apply FindAllString_lang in H.
  pose proof chordRegex_token_check as C.
  rewrite forallb_forall in C. apply C in H. clear C.
  destruct x as [|c rest]; [discriminate|].
  apply andb_true_iff in H as [H H3]. apply andb_true_iff in H as [H1 H2].
  exists c, rest. split; [reflexivity|]. split; [|split].
  - apply existsb_exists in H1 as (y & Hy & E).
    apply byte_eqb_eq in E as ->. exact Hy.
  - apply Nat.leb_le, H2.
  - apply List.Forall_forall. intros b Hb.
    rewrite forallb_forall in H3. apply H3 in Hb.
    apply orb_true_iff in Hb as [Hb|Hb]; [apply orb_true_iff in Hb as [Hb|Hb]|].
    + left. exact Hb.
    + right. left. apply byte_eqb_eq, Hb.
    + right. right. apply byte_eqb_eq, Hb.
Qed.

(** X2.  Every token the recognizer returns starts with a letter A to G,
    has at most nine bytes, and is made of letters, digits, [#] and [/]
    only. *)
Theorem X2_token_shape :
  forall line x : gostring,
    In x (FindAllString chordRegex line) ->
    exists c rest,
      x = c :: rest
      /\ In c (range "A" "G")
      /\ (length x <= 9)%nat
      /\ Forall (fun b => isWordByte b = true \/ b = "#"%char \/ b = "/"%char) x.
Proof. exact token_shape. Qed.

Lemma X2_witness :
  In (str "F#m7/Bb") (FindAllString chordRegex (str "x F#m7/Bb"))
  /\ exists c rest,
      str "F#m7/Bb" = c :: rest
      /\ In c (range "A" "G")
      /\ (length (str "F#m7/Bb") <= 9)%nat
      /\ Forall (fun b => isWordByte b = true \/ b = "#"%char \/ b = "/"%char)
                (str "F#m7/Bb").
Proof.
  assert (H : In (str "F#m7/Bb") (FindAllString chordRegex (str "x F#m7/Bb")))
    by (vm_compute; auto).
  split; [exact H|].
  exact (X2_token_shape (str "x F#m7/Bb") (str "F#m7/Bb") H).
Defined.

Lemma map_id_on {A} (f : A -> A) (l : list A) :
  (forall x, In x l -> f x = x) -> map f l = l.
Proof.
  induction l as [|x l IH]; simpl; intros H; [reflexivity|].
  rewrite H by (left; reflexivity). f_equal. apply IH. intros y Hy.
  apply H. right. exact Hy.
Qed.

Lemma lineKeys_tokens (line : gostring) : lineKeys line = extractTokens line.
Proof.
  unfold lineKeys. apply map_id_on. intros x Hx.
  unfold extractTokens in Hx. destruct (skipLine line); [destruct Hx|].
  apply (normalizeChord_token line x Hx).
Qed.

Lemma recordedKeys_tokens (files : list (list gostring)) :
  recordedKeys files = corpusTokens files.
Proof.
  unfold recordedKeys, corpusTokens.
  induction (concat files) as [|l ls IH]; simpl; [reflexivity|].
  rewrite lineKeys_tokens, IH. reflexivity.
Qed.

Lemma corpusTokens_nonempty (files : list (list gostring)) (x : gostring) :
  In x (corpusTokens files) -> x <> [].
Proof.
  unfold corpusTokens. intros H.
  apply in_flat_map in H as (line & _ & H).
  unfold extractTokens in H. destruct (skipLine line); [destruct H|].
  destruct (token_shape line x H) as (c & rest & -> & _). discriminate.
Qed.

(** X3.  The canonical form of a recognized token is the token itself, and
    it is never the empty key: the keys a scan records are the tokens of
    its lines, one record call for each. *)
Theorem X3_recorded_keys_are_tokens :
  forall (files : list (list gostring)) (line : gostring),
    lineKeys line = extractTokens line
    /\ recordedKeys files = corpusTokens files
    /\ Forall (fun key => key <> []) (recordedKeys files).
Proof.
  intros files line. split; [apply lineKeys_tokens|].
  split; [apply recordedKeys_tokens|].
  apply List.Forall_forall. intros key H.
  rewrite recordedKeys_tokens in H. exact (corpusTokens_nonempty files key H).
Qed.

(** A match that is found takes the skipped bytes from the text. *)
Lemma findAllFrom_length (r : regex) :
  forall s prev skip adjacent,
    (skip <= length s)%nat ->
    (length (concat (findAllFrom r prev skip adjacent s)) <= length s - skip)%nat.
Proof.
  induction s as [|c s IH]; intros prev skip adjacent Hskip.
  - simpl in Hskip. destruct skip; [|lia]. simpl.
    destruct (matchAt r prev []) as [[w rest]|] eqn:E; [|simpl; lia].
    apply matchAt_sound in E as [E _].
    symmetry in E. apply app_eq_nil in E as [-> ->].
    destruct adjacent; simpl; lia.
  - destruct skip as [|k]; simpl.
    + destruct (matchAt r prev (c :: s)) as [[w rest]|] eqn:E.
      * apply matchAt_sound in E as [E _].
        destruct w as [|x w].
        -- specialize (IH (Some c) 0%nat false ltac:(lia)).
           destruct adjacent; simpl; rewrite ?length_app; simpl; lia.
        -- assert (Hw : (length w <= length s)%nat).
           { apply (f_equal (@length ascii)) in E.
             simpl in E. rewrite length_app in E. lia. }
           simpl length. rewrite Nat.sub_0_r.
           specialize (IH (Some c) (length w) true Hw).
           simpl concat. rewrite length_app. simpl. lia.
      * specialize (IH (Some c) 0%nat false ltac:(lia)). lia.
    + simpl in Hskip. specialize (IH (Some c) k true ltac:(lia)). lia.
Qed.

(** A match that is found is a piece of the text. *)
Lemma findAllFrom_substring (r : regex) :
  forall s prev skip adjacent x,
    In x (findAllFrom r prev skip adjacent s) ->
    exists before after, s = before ++ x ++ after.
Proof.
  induction s as [|c s IH]; intros prev skip adjacent x Hin.
  - destruct skip; simpl in Hin; [|easy].
    destruct (matchAt r prev []) as [[w rest]|] eqn:E; [|easy].
    apply matchAt_sound in E as [E _].
    symmetry in E. apply app_eq_nil in E as [-> ->].
    destruct adjacent; simpl in Hin; [easy|].
    destruct Hin as [<-|[]]. exists [], []. reflexivity.
  - assert (Hrec : forall p k a, In x (findAllFrom r p k a s) ->
                     exists before after, c :: s = before ++ x ++ after).
    { intros p k a H. apply IH in H as (b & e & ->).
      exists (c :: b), e. reflexivity. }
    destruct skip; simpl in Hin; [|eauto].
    destruct (matchAt r prev (c :: s)) as [[w rest]|] eqn:E; [|eauto].
    apply matchAt_sound in E as [E _].
    destruct w as [|y w]; [destruct adjacent|]; simpl in Hin.
    + eauto.
    + destruct Hin as [<-|Hin]; [|eauto]. exists [], (c :: s). reflexivity.
    + destruct Hin as [<-|Hin]; [|eauto]. exists [], rest. exact E.
Qed.

Lemma weave_cons (c : ascii) (g : gostring) (gaps tokens : list gostring) :
  weave ((c :: g) :: gaps) tokens = c :: weave (g :: gaps) tokens.
Proof. destruct tokens; reflexivity. Qed.

(** The text behind the bytes still to pass is laid out as gaps and
    matches in turn. *)
Lemma findAllFrom_weave (r : regex) :
  forall s prev skip adjacent,
    (skip <= length s)%nat ->
    exists gaps,
      length gaps = S (length (findAllFrom r prev skip adjacent s))
      /\ drop skip s = weave gaps (findAllFrom r prev skip adjacent s).
Proof.
  induction s as [|c s IH]; intros prev skip adjacent Hskip.
  - simpl in Hskip. destruct skip; [|lia]. simpl.
    destruct (matchAt r prev []) as [[w rest]|] eqn:E;
      [|exists [[]]; split; reflexivity].
    apply matchAt_sound in E as [E _].
    symmetry in E. apply app_eq_nil in E as [-> ->].
    destruct adjacent; [exists [[]]|exists [[]; []]]; split; reflexivity.
  - assert (Hstep : forall p a,
              exists gaps,
                length gaps = S (length (findAllFrom r p 0 a s))
                /\ c :: s = weave gaps (findAllFrom r p 0 a s)).
    { intros p a. destruct (IH p 0%nat a ltac:(lia)) as (gaps & Hl & Hw).
      destruct gaps as [|g gaps]; [discriminate Hl|].
      exists ((c :: g) :: gaps). split; [exact Hl|].
      rewrite weave_cons. f_equal. exact Hw. }
    destruct skip as [|k].
    + cbn [findAllFrom drop].
      destruct (matchAt r prev (c :: s)) as [[w rest]|] eqn:E; [|apply Hstep].
      apply matchAt_sound in E as [E _].
      destruct w as [|x w].
      * destruct adjacent; [apply Hstep|].
        destruct (Hstep (Some c) false) as (gaps & Hl & Hw).
        exists ([] :: gaps). split; [exact (f_equal S Hl)|]. exact Hw.
      * assert (Hk : (length (x :: w) - 1 <= length s)%nat).
        { apply (f_equal (@length ascii)) in E. simpl in E.
          rewrite length_app in E. simpl. lia. }
        destruct (IH (Some c) _ true Hk) as (gaps & Hl & Hw).
        exists ([] :: gaps). split; [exact (f_equal S Hl)|].
        cbn [weave app]. rewrite <- Hw.
        injection E as -> ->.
        replace (length (x :: w) - 1)%nat with (length w) by (simpl; lia).
        rewrite drop_app_length. reflexivity.
    + simpl in Hskip. cbn [findAllFrom drop]. apply IH. lia.
Qed.

(** X4.  The tokens taken from a line are pieces of the line that follow
    one another without overlapping: the line is a gap, the first token, a
    gap, the second token, and so on up to a last gap, the gaps being the
    text that belongs to no token.  So each token occurs in the line, and
    together the tokens are no longer than the line. *)
Theorem X4_tokens_inside_line :
  forall line : gostring,
    (exists gaps : list gostring,
        length gaps = S (length (extractTokens line))
        /\ line = weave gaps (extractTokens line))
    /\ (length (concat (extractTokens line)) <= length line)%nat
    /\ Forall (fun x => exists before after, line = before ++ x ++ after)
              (extractTokens line).
Proof.
  intros line. unfold extractTokens.
  destruct (skipLine line).
  { split; [exists [line]; split; reflexivity|].
    split; [simpl; lia|constructor]. }
  split; [|split].
  - exact (findAllFrom_weave chordRegex line None 0%nat false ltac:(lia)).
  - pose proof (findAllFrom_length chordRegex line None 0%nat false ltac:(lia)).
    unfold FindAllString. lia.
  - apply List.Forall_forall. intros x Hx.
    exact (findAllFrom_substring chordRegex line None 0%nat false x Hx).
Qed.

Lemma length_concat_nonempty (l : list gostring) :
  (forall x, In x l -> x <> []) -> (length l <= length (concat l))%nat.
Proof.
  induction l as [|x l IH]; intros H; simpl; [lia|].
  rewrite length_app.
  assert (Hx : x <> []) by (apply H; left; reflexivity).
  assert (Hl : (length l <= length (concat l))%nat)
    by (apply IH; intros y Hy; apply H; right; exact Hy).
  destruct x; [congruence|]. simpl. lia.
Qed.

Lemma extractTokens_count (line : gostring) :
  (length (extractTokens line) <= length line)%nat.
Proof.
  unfold extractTokens. destruct (skipLine line); [simpl; lia|].
  pose proof (findAllFrom_length chordRegex line None 0%nat false ltac:(lia)) as L.
  fold (FindAllString chordRegex line) in L.
  assert (N : (length (FindAllString chordRegex line)
               <= length (concat (FindAllString chordRegex line)))%nat).
  { apply length_concat_nonempty. intros x Hx.
    destruct (token_shape line x Hx) as (c & rest & -> & _). discriminate. }
  lia.
Qed.

Lemma corpusTokens_count (files : list (list gostring)) :
  (length (corpusTokens files) <= length (concat (concat files)))%nat.
Proof.
  unfold corpusTokens.
  induction (concat files) as [|l ls IH]; simpl; [lia|].
  rewrite !length_app. pose proof (extractTokens_count l). lia.
Qed.

(** X5.  A scan makes at most as many record calls as its lines have
    bytes, so that no count overflows on a corpus of fewer than [2^63]
    bytes. *)
Theorem X5_record_calls_bounded :
  forall files : list (list gostring),
    (length (recordedKeys files) <= length (concat (concat files)))%nat.
Proof.
  intros files. rewrite recordedKeys_tokens. apply corpusTokens_count.
Qed.

(** The table of a scan, key by key. *)
Lemma scanCorpus_lookup (files : list (list gostring)) (k : gostring) :
  Z.of_nat (length (corpusTokens files)) <= maxInt ->
  scanCorpus files !! k
  = match occurrences (corpusTokens files) k with
    | O => None
    | S n => Some (Z.of_nat (S n))
    end.
Proof.
  intros Hmax. rewrite scanCorpus_record, recordedKeys_tokens.
  destruct k as [|c k].
  - rewrite record_lookup_nil by reflexivity.
    destruct (occurrences (corpusTokens files) []) eqn:E; [reflexivity|].
    exfalso. apply (corpusTokens_nonempty files []); [|reflexivity].
    apply (count_occ_In (fun x y : gostring => decide (x = y))).
    unfold occurrences in E. rewrite E. lia.
  - rewrite record_lookup by easy.
    pose proof (occurrences_le (corpusTokens files) (c :: k)).
    destruct (occurrences (corpusTokens files) (c :: k)); [reflexivity|].
    rewrite wrapInt_small by lia. reflexivity.
Qed.

(** X6.  Below the overflow, the count of a key is the number of tokens of
    the scanned lines that are equal to it, and a key that is no token of
    the corpus is not in the table. *)
Theorem X6_count_is_occurrences :
  forall (files : list (list gostring)) (k : gostring),
    Z.of_nat (length (corpusTokens files)) <= maxInt ->
    scanCorpus files !! k
    = match occurrences (corpusTokens files) k with
      | O => None
      | S n => Some (Z.of_nat (S n))
      end.
Proof. exact scanCorpus_lookup. Qed.

Lemma X6_witness :
  Z.of_nat (length (corpusTokens [[str "C G"; str "{C}"; str "C"]])) <= maxInt
  /\ scanCorpus [[str "C G"; str "{C}"; str "C"]] !! str "C"
     = match occurrences (corpusTokens [[str "C G"; str "{C}"; str "C"]]) (str "C") with
       | O => None
       | S n => Some (Z.of_nat (S n))
       end.
Proof.
  assert (H : Z.of_nat (length (corpusTokens [[str "C G"; str "{C}"; str "C"]])) <= maxInt)
    by (apply Z.leb_le; vm_compute; reflexivity).
  split; [exact H|].
  exact (X6_count_is_occurrences [[str "C G"; str "{C}"; str "C"]] (str "C") H).
Defined.

Lemma totalCount_empty : totalCount ∅ = 0.
Proof. unfold totalCount. apply map_fold_empty. Qed.

Lemma totalCount_insert (m : gmap gostring Z) (k : gostring) (v : Z) :
  m !! k = None -> totalCount (<[k := v]> m) = v + totalCount m.
Proof.
  intros H. unfold totalCount.
  apply (map_fold_insert_L (fun (_ : gostring) count total => count + total));
    [|exact H].
  intros. lia.
Qed.

(** One record call adds to the sum what it adds to the count. *)
Lemma totalCount_record (m : gmap gostring Z) (c : ascii) (k : gostring) :
  totalCount (record m (c :: k))
  = totalCount m
    + (wrapInt (default 0 (m !! (c :: k)) + 1) - default 0 (m !! (c :: k))).
Proof.
  unfold record. destruct (m !! (c :: k)) as [v|] eqn:E; simpl default.
  - rewrite <- (insert_delete_eq m).
    rewrite totalCount_insert by apply lookup_delete_eq.
    rewrite <- (insert_delete_id m (c :: k) v E) at 2.
    rewrite totalCount_insert by apply lookup_delete_eq. lia.
  - rewrite totalCount_insert by exact E. lia.
Qed.

Lemma totalCount_fold (keys : list gostring) :
  Z.of_nat (length keys) <= maxInt ->
  (forall key, In key keys -> key <> []) ->
  totalCount (fold_left record keys ∅) = Z.of_nat (length keys).
Proof.
  induction keys as [|x keys IH] using rev_ind; intros Hmax Hne.
  - apply totalCount_empty.
  - rewrite length_app in *. simpl length in *.
    rewrite fold_left_app. simpl.
    assert (Hx : x <> []) by (apply Hne, in_app_iff; right; left; reflexivity).
    destruct x as [|c x]; [congruence|].
    rewrite totalCount_record, IH;
      [|lia|intros key Hk; apply Hne, in_app_iff; left; exact Hk].
    rewrite record_default by (lia || easy).
    pose proof (occurrences_le keys (c :: x)).
    rewrite wrapInt_small by lia. lia.
Qed.

(** X7.  Below the overflow, the counts of the table add up to the number
    of tokens of the scanned lines. *)
Theorem X7_counts_add_up :
  forall files : list (list gostring),
    Z.of_nat (length (corpusTokens files)) <= maxInt ->
    totalCount (scanCorpus files) = Z.of_nat (length (corpusTokens files)).
Proof.
  intros files Hmax. rewrite scanCorpus_record, recordedKeys_tokens.
  apply totalCount_fold; [exact Hmax|]. apply corpusTokens_nonempty.
Qed.

Lemma X7_witness :
  Z.of_nat (length (corpusTokens [[str "C G Am"; str "[x] D"]; [str "G C"]])) <= maxInt
  /\ totalCount (scanCorpus [[str "C G Am"; str "[x] D"]; [str "G C"]])
     = Z.of_nat (length (corpusTokens [[str "C G Am"; str "[x] D"]; [str "G C"]])).
Proof.
  assert (H : Z.of_nat (length (corpusTokens [[str "C G Am"; str "[x] D"]; [str "G C"]]))
              <= maxInt)
    by (apply Z.leb_le; vm_compute; reflexivity).
  split; [exact H|].
  exact (X7_counts_add_up [[str "C G Am"; str "[x] D"]; [str "G C"]] H).
Defined.



Lemma token_parts_check :
  forallb (fun x =>
             forallb (fun p => bool_decide (normalizeChordPart p = p))
                     (Split (normalizeChord x) "/")
             && (length (Split (normalizeChord x) "/") <=? 2)%nat
             && bool_decide (Join (Split (normalizeChord x) "/") (str "/")
                             = normalizeChord x))
          (lang chordRegex) = true.
Proof. vm_compute. reflexivity. Qed.

(** X9.  The canonical form of a recognized token has one or two parts
    between slashes, each part is its own canonical form, and the parts
    joined by a slash give the canonical form back. *)
Theorem X9_parts_canonical :
  forall line x : gostring,
    In x (FindAllString chordRegex line) ->
    Forall (fun p => normalizeChordPart p = p) (Split (normalizeChord x) "/")
    /\ (length (Split (normalizeChord x) "/") <= 2)%nat
    /\ Join (Split (normalizeChord x) "/") (str "/") = normalizeChord x.
Proof.
  intros line x H. apply FindAllString_lang in H.
  pose proof token_parts_check as C.
  rewrite forallb_forall in C. apply C in H. clear C.
  apply andb_true_iff in H as [H H3]. apply andb_true_iff in H as [H1 H2].
  split; [|split].
  - apply List.Forall_forall. intros p Hp.
    rewrite forallb_forall in H1. apply H1 in Hp.
    apply bool_decide_eq_true in Hp. exact Hp.
  - apply Nat.leb_le, H2.
  - apply bool_decide_eq_true in H3. exact H3.
Qed.

Lemma X9_witness :
  In (str "Bm/D") (FindAllString chordRegex (str "Bm/D"))
  /\ Forall (fun p => normalizeChordPart p = p) (Split (normalizeChord (str "Bm/D")) "/")
  /\ (length (Split (normalizeChord (str "Bm/D")) "/") <= 2)%nat
  /\ Join (Split (normalizeChord (str "Bm/D")) "/") (str "/") = normalizeChord (str "Bm/D").
Proof.
  assert (H : In (str "Bm/D") (FindAllString chordRegex (str "Bm/D")))
    by (vm_compute; auto).
  split; [exact H|].
  exact (X9_parts_canonical (str "Bm/D") (str "Bm/D") H).
Defined.

(** ** The canonicalizer on arbitrary strings *)

Lemma ToUpperByte_not_nil (c : ascii) : ToUpperByte c <> [].
Proof.
  unfold ToUpperByte, utf8_2.
  destruct (toUpperRune (code c) <? 128)%N; discriminate.
Qed.

Lemma normalizeChordPart_nil (x : gostring) :
  normalizeChordPart x = [] <-> x = [].
Proof.
  split; [|intros ->; reflexivity].
  destruct x as [|c rest]; [reflexivity|].
  rewrite normalizeChordPart_cons. unfold ReplaceAll. intros H.
  apply map_eq_nil in H. apply app_eq_nil in H as [H _].
  destruct (ToUpperByte_not_nil c H).
Qed.

(** A string with a separator, cut at the first one. *)
Lemma Contains_first (s : gostring) (sep : ascii) :
  Contains s sep = true ->
  exists a b, s = a ++ sep :: b /\ Contains a sep = false.
Proof.
  induction s as [|c s IH]; simpl; [discriminate|]. intros H.
  destruct (byte_eqb sep c) eqn:E.
  - apply byte_eqb_eq in E as <-. exists [], s. auto.
  - destruct (IH H) as (a & b & -> & Ha).
    exists (c :: a), b. split; [reflexivity|]. simpl. rewrite E. exact Ha.
Qed.

(** The first part of a split is empty when the string is empty or starts
    with the separator. *)
Lemma Split_head_nil (s : gostring) (sep : ascii) :
  nth 0 (Split s sep) [] = [] <-> s = [] \/ exists r, s = sep :: r.
Proof.
  destruct s as [|c s]; simpl.
  - split; auto.
  - destruct (byte_eqb c sep) eqn:E.
    + apply byte_eqb_eq in E as ->. simpl. split; eauto.
    + apply byte_eqb_neq in E.
      destruct (Split s sep); simpl; split;
        try discriminate; intros [H|[r H]]; try discriminate; congruence.
Qed.

(** The strings that start with a slash and go on with a slash or
    nothing, cut at the first slash. *)
Lemma slash_cases (a b : gostring) :
  Contains a "/" = false ->
  (a ++ "/"%char :: b = [] \/ a ++ "/"%char :: b = str "/"
   \/ exists rest, a ++ "/"%char :: b = str "//" ++ rest)
  <-> a = [] /\ (b = [] \/ exists r, b = "/"%char :: r).
Proof.
  intros Ha. destruct a as [|x a].
  - simpl. split.
    + intros [H|[H|[rest H]]]; [discriminate| |].
      * injection H as ->. auto.
      * injection H as ->. eauto.
    + intros [_ [->|[r ->]]]; [right; left; reflexivity|].
      right. right. exists r. reflexivity.
  - change (byte_eqb "/" x || Contains a "/" = false) in Ha.
    apply orb_false_iff in Ha as [Hx Ha].
    apply byte_eqb_neq in Hx. split.
    + intros [H|[H|[rest H]]]; [discriminate| |]; simpl in H;
        injection H as -> _; congruence.
    + intros [H _]. discriminate.
Qed.

(** X10.  [normalizeChord] returns the empty key, which the caller
    discards, in three cases only: the trimmed string is empty, it is a
    lone slash, or it starts with two slashes. *)
Theorem X10_discard_cases :
  forall s : gostring,
    normalizeChord s = []
    <-> TrimSpace s = []
        \/ TrimSpace s = str "/"
        \/ exists rest, TrimSpace s = str "//" ++ rest.
Proof.
  intros s. unfold normalizeChord.
  destruct (TrimSpace s) as [|c t] eqn:Et.
  - split; auto.
  - destruct (Contains (c :: t) "/") eqn:Ec.
    + destruct (Contains_first _ _ Ec) as (a & b & E & Ha).
      rewrite E, (Split_first _ _ _ Ha), (slash_cases a b Ha).
      change (nth 0 (a :: Split b "/") []) with a.
      change (nth 1 (a :: Split b "/") []) with (nth 0 (Split b "/") []).
      pose proof (Split_head_nil b "/") as Hb.
      destruct (nth 0 (Split b "/") []) as [|y ys].
      * rewrite normalizeChordPart_nil. split; [|tauto].
        intros ->. split; [reflexivity|]. apply Hb. reflexivity.
      * split.
        -- intros H. apply app_eq_nil in H as [_ H]. simpl in H. discriminate H.
        -- intros [_ H]. apply Hb in H. discriminate H.
    + cbv beta iota zeta. split.
      * intros H. apply (proj1 (normalizeChordPart_nil _)) in H. discriminate H.
      * intros [H|[H|[r H]]]; [discriminate H| |]; exfalso;
          rewrite H in Ec; discriminate Ec.
Qed.

Lemma ReplaceAll_no_old (s : gostring) (old new : ascii) :
  old <> new -> Forall (fun c => c <> old) (ReplaceAll s old new).
Proof.
  intros Hne. unfold ReplaceAll. apply List.Forall_forall. intros c Hc.
  apply in_map_iff in Hc as (x & <- & _).
  destruct (byte_eqb x old) eqn:E; [congruence|]. apply byte_eqb_neq, E.
Qed.

Lemma normalizeChordPart_no_M (x : gostring) :
  Forall (fun c => c <> "M"%char) (normalizeChordPart x).
Proof.
  destruct x as [|c rest]; [constructor|].
  rewrite normalizeChordPart_cons. apply ReplaceAll_no_old. discriminate.
Qed.

(** X11.  No canonical form has an upper-case M in it, whatever the input.
    The first byte is no exception: a part that starts with m or M comes
    out with a lower-case m in front, the capital letter of the first step
    being replaced with the others. *)
Theorem X11_no_upper_M :
  forall s rest : gostring,
    Forall (fun c => c <> "M"%char) (normalizeChord s)
    /\ normalizeChordPart ("m"%char :: rest) = "m"%char :: ReplaceAll rest "M" "m"
    /\ normalizeChordPart ("M"%char :: rest) = "m"%char :: ReplaceAll rest "M" "m".
Proof.
  intros s rest. split; [|split; apply normalizeChordPart_cons].
  unfold normalizeChord. destruct (TrimSpace s) as [|c t]; [constructor|].
  destruct (if Contains (c :: t) "/" then _ else _) as [chordPart inversionPart].
  destruct inversionPart as [|y ys]; [apply normalizeChordPart_no_M|].
  apply Forall_app. split; [apply normalizeChordPart_no_M|].
  apply Forall_app. split; [repeat constructor; discriminate|].
  apply normalizeChordPart_no_M.
Qed.

Lemma ReplaceAll_idem (s : gostring) (old new : ascii) :
  old <> new ->
  ReplaceAll (ReplaceAll s old new) old new = ReplaceAll s old new.
Proof.
  intros Hne. unfold ReplaceAll. rewrite map_map. apply map_ext. intros c.
  destruct (byte_eqb c old) eqn:E; [|rewrite E; reflexivity].
  replace (byte_eqb new old) with false; [reflexivity|].
  symmetry. apply byte_eqb_neq. congruence.
Qed.

(** The first byte of a part, when it is an ASCII byte: it becomes one
    byte, on which the two first steps change nothing any more. *)
Lemma first_byte_check :
  forallb (fun n =>
             let c := ascii_of_nat n in
             match ReplaceAll (ToUpperByte c) "M" "m" with
             | [u] => bool_decide (ReplaceAll (ToUpperByte u) "M" "m" = [u])
             | _ => false
             end)
          (seq 0 128) = true.
Proof. vm_compute. reflexivity. Qed.

Lemma first_byte_stable (c : ascii) :
  isASCII c = true ->
  exists u, ReplaceAll (ToUpperByte c) "M" "m" = [u]
            /\ ReplaceAll (ToUpperByte u) "M" "m" = [u].
Proof.
  intros H. unfold isASCII, code in H. apply N.ltb_lt in H.
  pose proof first_byte_check as C. rewrite forallb_forall in C.
  specialize (C (nat_of_ascii c)).
  rewrite ascii_nat_embedding in C.
  assert (Hin : In (nat_of_ascii c) (seq 0 128)).
  { apply in_seq. unfold nat_of_ascii. lia. }
  specialize (C Hin). cbv zeta in C.
  destruct (ReplaceAll (ToUpperByte c) "M" "m") as [|u [|]]; try discriminate C.
  exists u. split; [reflexivity|]. apply bool_decide_eq_true in C. exact C.
Qed.

(** X12.  On a part that starts with an ASCII byte [normalizeChordPart]
    is idempotent. *)
Theorem X12_part_idempotent :
  forall (c : ascii) (rest : gostring),
    isASCII c = true ->
    normalizeChordPart (normalizeChordPart (c :: rest))
    = normalizeChordPart (c :: rest).
Proof.
  intros c rest H. rewrite (normalizeChordPart_cons c rest), ReplaceAll_app.
  destruct (first_byte_stable c H) as (u & -> & Hu).
  change ([u] ++ ReplaceAll rest "M" "m") with (u :: ReplaceAll rest "M" "m").
  rewrite normalizeChordPart_cons, ReplaceAll_app, Hu.
  rewrite ReplaceAll_idem by discriminate. reflexivity.
Qed.

Lemma X12_witness :
  isASCII "c" = true
  /\ normalizeChordPart (normalizeChordPart ("c"%char :: str "MAJ7"))
     = normalizeChordPart ("c"%char :: str "MAJ7").
Proof.
  split; [reflexivity|]. exact (X12_part_idempotent "c" (str "MAJ7") eq_refl).
Defined.

(** ** The report *)

(** X13.  Below the overflow, the report has one entry line for each
    distinct token of the scanned lines: no chord comes twice, every chord
    of the report is a token of the corpus, and its count is the number of
    its occurrences. *)
Theorem X13_report_entries :
  forall (files : list (list gostring)) (output : gostring),
    Z.of_nat (length (corpusTokens files)) <= maxInt ->
    CountChordsAction files output ->
    exists sorted : list chordFrequency,
      output = renderReport sorted
      /\ List.NoDup (map Chord sorted)
      /\ length (outputLines sorted) = (2 + size (scanCorpus files))%nat
      /\ (forall f, In f sorted ->
            In (Chord f) (corpusTokens files)
            /\ Count f = Z.of_nat (occurrences (corpusTokens files) (Chord f)))
      /\ (forall x, In x (corpusTokens files) -> In x (map Chord sorted)).
Proof.
  intros files output Hmax (frequencies & sorted & Hr & [Hp _] & ->).
  unfold rangeOrder in Hr.
  assert (P : Permutation sorted (entries (scanCorpus files)))
    by (rewrite <- Hp; exact Hr).
  exists sorted. split; [reflexivity|]. split; [|split; [|split]].
  - apply (Permutation_NoDup (Permutation_map Chord (Permutation_sym P))).
    rewrite entries_keys. apply NoDup_ListNoDup, NoDup_fst_map_to_list.
  - rewrite outputLines_eq. simpl. rewrite length_map.
    rewrite (Permutation_length P). unfold entries.
    rewrite length_map, length_map_to_list. reflexivity.
  - intros f Hf. apply (Permutation_in _ P), entries_lookup in Hf.
    rewrite (scanCorpus_lookup files (Chord f) Hmax) in Hf.
    destruct (occurrences (corpusTokens files) (Chord f)) as [|n] eqn:E;
      [discriminate|].
    injection Hf as <-. split; [|reflexivity].
    apply (count_occ_In (fun x y : gostring => decide (x = y))).
    unfold occurrences in E. rewrite E. lia.
  - intros x Hx.
    apply (count_occ_In (fun x y : gostring => decide (x = y))) in Hx.
    pose proof (scanCorpus_lookup files x Hmax) as L.
    fold (occurrences (corpusTokens files) x) in Hx.
    destruct (occurrences (corpusTokens files) x) as [|n]; [lia|].
    apply in_map_iff. exists {| Chord := x; Count := Z.of_nat (S n) |}.
    split; [reflexivity|].
    apply (Permutation_in _ (Permutation_sym P)), entries_lookup. exact L.
Qed.

Lemma X13_witness :
  let files := [[str "C G"; str "G"]] in
  Z.of_nat (length (corpusTokens files)) <= maxInt
  /\ exists sorted : list chordFrequency,
       renderReport (insertionSort (entries (scanCorpus files))) = renderReport sorted
       /\ List.NoDup (map Chord sorted)
       /\ length (outputLines sorted) = (2 + size (scanCorpus files))%nat
       /\ (forall f, In f sorted ->
             In (Chord f) (corpusTokens files)
             /\ Count f = Z.of_nat (occurrences (corpusTokens files) (Chord f)))
       /\ (forall x, In x (corpusTokens files) -> In x (map Chord sorted)).
Proof.
  intros files.
  assert (H : Z.of_nat (length (corpusTokens files)) <= maxInt)
    by (apply Z.leb_le; vm_compute; reflexivity).
  split; [exact H|].
  exact (X13_report_entries files _ H (CountChordsAction_runs files)).
Defined.

(** ** Replacement *)

(** Without assertions the matcher does not look at the byte before. *)
Lemma run_noAssert (r : regex) :
  noAssert r = true ->
  forall prev prev' s, run r prev s = run r prev' s.
Proof.
  induction r as [|c|cs|r1 IH1 r2 IH2|r1 IH1 r2 IH2|r1 IH1| |];
    simpl; intros H prev prev' s; try reflexivity; try discriminate.
  - apply andb_true_iff in H as [H1 H2].
    rewrite (IH1 H1 prev prev' s). apply flat_map_ext. intros m1.
    f_equal. apply (IH2 H2).
  - apply andb_true_iff in H as [H1 H2].
    rewrite (IH1 H1 prev prev' s), (IH2 H2 prev prev' s). reflexivity.
  - rewrite (IH1 H prev prev' s). reflexivity.
Qed.

Lemma matchAt_nonempty (r : regex) prev s w rest :
  ~ In [] (lang r) -> matchAt r prev s = Some (w, rest) -> w <> [].
Proof.
  intros Hl H. apply matchAt_sound in H as [_ H]. congruence.
Qed.

(** For a pattern without assertions that reads no empty text, the
    replacement behind a position depends on the text alone. *)
Lemma replaceAllFrom_context (r : regex) (repl : gostring) :
  noAssert r = true -> ~ In [] (lang r) ->
  forall s skip prev adjacent prev' adjacent',
    replaceAllFrom r repl prev skip adjacent s
    = replaceAllFrom r repl prev' skip adjacent' s.
Proof.
  intros Ha Hl. induction s as [|c s IH]; intros skip prev adjacent prev' adjacent'.
  - destruct skip; [|reflexivity]. simpl. unfold matchAt.
    rewrite (run_noAssert r Ha prev prev').
    destruct (head (run r prev' [])) as [[w rest]|] eqn:E; [|reflexivity].
    pose proof (matchAt_nonempty r prev' [] w rest Hl E).
    destruct w; [congruence|reflexivity].
  - destruct skip; simpl; [|apply IH]. unfold matchAt.
    rewrite (run_noAssert r Ha prev prev').
    destruct (head (run r prev' (c :: s))) as [[w rest]|] eqn:E;
      [|f_equal; apply IH].
    pose proof (matchAt_nonempty r prev' (c :: s) w rest Hl E).
    destruct w; [congruence|reflexivity].
Qed.

(** ** The file names *)

Lemma matchAt_Class (cs : list ascii) prev (c : ascii) (s : gostring) :
  matchAt (Class cs) prev (c :: s)
  = if existsb (byte_eqb c) cs then Some ([c], s) else None.
Proof.
  unfold matchAt. simpl. destruct (existsb (byte_eqb c) cs); reflexivity.
Qed.

Lemma replaceAllFrom_cons (r : regex) (repl : gostring) prev adjacent
      (c : ascii) (s : gostring) :
  replaceAllFrom r repl prev 0 adjacent (c :: s)
  = match matchAt r prev (c :: s) with
    | None => c :: replaceAllFrom r repl (Some c) 0 false s
    | Some ([], _) =>
        (if adjacent then [] else repl)
        ++ c :: replaceAllFrom r repl (Some c) 0 false s
    | Some (w, _) =>
        repl ++ replaceAllFrom r repl (Some c) (length w - 1) true s
    end.
Proof. reflexivity. Qed.

Lemma sanitizeFilename_from (s : gostring) :
  forall prev adjacent,
    replaceAllFrom sanitizeRegex [] prev 0 adjacent s = List.filter keptInName s.
Proof.
  induction s as [|c s IH]; intros prev adjacent; [reflexivity|].
  rewrite replaceAllFrom_cons. unfold sanitizeRegex at 1.
  rewrite matchAt_Class. cbn [List.filter]. unfold keptInName at 1.
  destruct (existsb (byte_eqb c) sanitizeChars); cbn [negb].
  - apply IH.
  - f_equal. apply IH.
Qed.

Lemma sanitizeFilename_filter (name : gostring) :
  sanitizeFilename name = List.filter keptInName name.
Proof. apply sanitizeFilename_from. Qed.

Lemma filter_idem {A} (f : A -> bool) (l : list A) :
  List.filter f (List.filter f l) = List.filter f l.
Proof.
  induction l as [|x l IH]; simpl; [reflexivity|].
  destruct (f x) eqn:E; simpl; [rewrite E, IH|]; auto.
Qed.

(** X14.  [sanitizeFilename] takes the nine bytes of its class out of the
    name and keeps every other byte, dots and control bytes among them, in
    place: the result has none of the nine, and a second pass changes
    nothing. *)
Theorem X14_sanitizeFilename :
  forall name : gostring,
    sanitizeFilename name = List.filter keptInName name
    /\ Forall (fun c => ~ In c sanitizeChars) (sanitizeFilename name)
    /\ sanitizeFilename (sanitizeFilename name) = sanitizeFilename name.
Proof.
  intros name. rewrite !sanitizeFilename_filter.
  split; [reflexivity|]. split; [|apply filter_idem].
  apply List.Forall_forall. intros c Hc.
  apply filter_In in Hc as [_ Hc]. unfold keptInName in Hc.
  apply negb_true_iff in Hc. intros Hin.
  assert (E : existsb (byte_eqb c) sanitizeChars = true).
  { apply existsb_exists. exists c. split; [exact Hin|]. apply byte_eqb_eq. reflexivity. }
  congruence.
Qed.

(** ** The markers *)

Lemma markerRegex_noAssert : noAssert markerRegex = true.
Proof. reflexivity. Qed.

Lemma markerRegex_nonempty : ~ In [] (lang markerRegex).
Proof. vm_compute. intuition discriminate. Qed.

Lemma stripMarkers_from (s : gostring) prev adjacent :
  replaceAllFrom markerRegex [] prev 0 adjacent s = stripMarkers s.
Proof.
  apply replaceAllFrom_context;
    [exact markerRegex_noAssert|exact markerRegex_nonempty].
Qed.

(** Text without an opening bracket goes through. *)
Lemma stripMarkers_plain (a b : gostring) :
  Contains a "[" = false -> stripMarkers (a ++ b) = a ++ stripMarkers b.
Proof.
  intros Ha. unfold stripMarkers at 1, ReplaceAllString.
  generalize (@None ascii) as prev. generalize false as adjacent.
  induction a as [|c a IH]; intros adjacent prev.
  - apply stripMarkers_from.
  - change (byte_eqb "[" c || Contains a "[" = false) in Ha.
    apply orb_false_iff in Ha as [Hc Ha].
    assert (Hc' : byte_eqb c "[" = false).
    { apply byte_eqb_neq. apply byte_eqb_neq in Hc. congruence. }
    cbn [app]. rewrite replaceAllFrom_cons.
    replace (matchAt markerRegex prev (c :: a ++ b)) with (@None (gostring * gostring)).
    + f_equal. apply IH, Ha.
    + unfold matchAt, markerRegex. simpl. rewrite Hc'. reflexivity.
Qed.

(** A marker at the front is taken out. *)
Lemma stripMarkers_marker (m b : gostring) :
  In m markers -> stripMarkers (m ++ b) = stripMarkers b.
Proof.
  intros Hm. unfold markers in Hm. simpl in Hm.
  destruct Hm as [<-|[<-|[<-|[<-|[]]]]];
    unfold stripMarkers at 1, ReplaceAllString; simpl; apply stripMarkers_from.
Qed.

(** X15.  Taking the markers out leaves text without an opening bracket as
    it is, removes each of the four markers [tab], [/tab], [ch] and [/ch]
    where it stands, and goes on behind it. *)
Theorem X15_stripMarkers :
  forall a m b : gostring,
    Contains a "[" = false -> In m markers ->
    stripMarkers (a ++ b) = a ++ stripMarkers b
    /\ stripMarkers (a ++ m ++ b) = a ++ stripMarkers b
    /\ stripMarkers a = a.
Proof.
  intros a m b Ha Hm. split; [apply stripMarkers_plain, Ha|]. split.
  - rewrite (stripMarkers_plain _ _ Ha), (stripMarkers_marker _ _ Hm).
    reflexivity.
  - rewrite <- (app_nil_r a) at 1. rewrite (stripMarkers_plain _ _ Ha).
    change (stripMarkers []) with (@nil ascii). apply app_nil_r.
Qed.

Lemma X15_witness :
  Contains (str "x ") "[" = false
  /\ In (str "[/ch]") markers
  /\ stripMarkers (str "x " ++ str "[ch]Am") = str "x " ++ stripMarkers (str "[ch]Am")
  /\ stripMarkers (str "x " ++ str "[/ch]" ++ str "[ch]Am")
     = str "x " ++ stripMarkers (str "[ch]Am")
  /\ stripMarkers (str "x ") = str "x ".
Proof.
  assert (Hm : In (str "[/ch]") markers) by (vm_compute; tauto).
  split; [reflexivity|]. split; [exact Hm|].
  exact (X15_stripMarkers (str "x ") (str "[/ch]") (str "[ch]Am") eq_refl Hm).
Defined.

(** X16.  The markers are taken out in one pass: where a marker stands in
    the middle of another one, behind its opening bracket, the outer
    marker is left in the text. *)
Theorem X16_stripMarkers_one_pass :
  forall a inner outer b : gostring,
    Contains a "[" = false -> In inner markers -> In ("["%char :: outer) markers ->
    stripMarkers (a ++ "["%char :: inner ++ outer ++ b)
    = a ++ "["%char :: outer ++ stripMarkers b.
Proof.
  intros a inner outer b Ha Hi Ho.
  rewrite (stripMarkers_plain _ _ Ha). f_equal.
  change ("["%char :: inner ++ outer ++ b) with (["["%char] ++ inner ++ outer ++ b).
  unfold markers in Hi, Ho. simpl in Hi, Ho.
  assert (Hout : Contains outer "[" = false).
  { destruct Ho as [H|[H|[H|[H|[]]]]]; injection H as <-; reflexivity. }
  assert (Hfirst : forall t, stripMarkers ("["%char :: inner ++ t)
                             = "["%char :: stripMarkers t).
  { intros t.
    destruct Hi as [<-|[<-|[<-|[<-|[]]]]];
      unfold stripMarkers at 1, ReplaceAllString; simpl;
      f_equal; apply stripMarkers_from. }
  simpl app. rewrite Hfirst. f_equal. apply stripMarkers_plain, Hout.
Qed.

Lemma X16_witness :
  Contains (str "a") "[" = false
  /\ In (str "[ch]") markers
  /\ In ("["%char :: str "/tab]") markers
  /\ stripMarkers (str "a" ++ "["%char :: str "[ch]" ++ str "/tab]" ++ str "b[ch]")
     = str "a" ++ "["%char :: str "/tab]" ++ stripMarkers (str "b[ch]").
Proof.
  assert (Hi : In (str "[ch]") markers) by (vm_compute; tauto).
  assert (Ho : In ("["%char :: str "/tab]") markers) by (vm_compute; tauto).
  split; [reflexivity|]. split; [exact Hi|]. split; [exact Ho|].
  exact (X16_stripMarkers_one_pass (str "a") (str "[ch]") (str "/tab]") (str "b[ch]")
           eq_refl Hi Ho).
Defined.

(** ** The files written and the files read *)

(** [Ext] returns an end piece of the path. *)
Lemma extBack_end (goos : GOOS) :
  forall revPath seen,
    exists base, rev revPath ++ seen = base ++ extBack goos revPath seen.
Proof.
  induction revPath as [|c p IH]; intros seen.
  - exists seen. simpl. symmetry. apply app_nil_r.
  - simpl. destruct (IsPathSeparator goos c).
    + eexists. symmetry. apply app_nil_r.
    + destruct (byte_eqb c ".").
      * exists (rev p). rewrite <- app_assoc. reflexivity.
      * destruct (IH (c :: seen)) as [base Hb]. exists base.
        rewrite <- app_assoc. exact Hb.
Qed.

Lemma Ext_end (goos : GOOS) (path : gostring) :
  exists base, path = base ++ Ext goos path.
Proof.
  destruct (extBack_end goos (rev path) []) as [base H].
  rewrite rev_involutive, app_nil_r in H. exists base. exact H.
Qed.

(** The lower case of a byte is one of the four bytes of ".crd" for that
    byte and its capital only. *)
Lemma lowerByte_dot (e : ascii) : lowerByte e = "."%char -> e = "."%char.
Proof.
  destruct e as [[] [] [] [] [] [] [] []]; vm_compute; intros H;
    (reflexivity || discriminate H).
Qed.

Lemma lowerByte_c (e : ascii) :
  lowerByte e = "c"%char -> e = "c"%char \/ e = "C"%char.
Proof.
  destruct e as [[] [] [] [] [] [] [] []]; vm_compute; intros H;
    (discriminate H || auto).
Qed.

Lemma lowerByte_r (e : ascii) :
  lowerByte e = "r"%char -> e = "r"%char \/ e = "R"%char.
Proof.
  destruct e as [[] [] [] [] [] [] [] []]; vm_compute; intros H;
    (discriminate H || auto).
Qed.

Lemma lowerByte_d (e : ascii) :
  lowerByte e = "d"%char -> e = "d"%char \/ e = "D"%char.
Proof.
  destruct e as [[] [] [] [] [] [] [] []]; vm_compute; intros H;
    (discriminate H || auto).
Qed.

(** A path that ends with ".crd", in whatever case, has that end as its
    extension. *)
Lemma Ext_crd (goos : GOOS) (base ext : gostring) :
  map lowerByte ext = str ".crd" ->
  Ext goos (base ++ ext) = ext /\ ToLower ext = Some (str ".crd").
Proof.
  intros H.
  destruct ext as [|e0 [|e1 [|e2 [|e3 [|e4 ext]]]]]; try discriminate H.
  simpl in H. injection H as H0 H1 H2 H3.
  apply lowerByte_dot in H0 as ->.
  unfold Ext. rewrite rev_app_distr.
  apply lowerByte_c in H1 as [-> | ->]; apply lowerByte_r in H2 as [-> | ->];
    apply lowerByte_d in H3 as [-> | ->]; destruct goos; split; reflexivity.
Qed.

Lemma isSongFile_iff (goos : GOOS) (path : gostring) :
    isSongFile goos path = true
    <-> exists base ext, path = base ++ ext /\ map lowerByte ext = str ".crd".
Proof.
  unfold isSongFile. split.
  - destruct (Ext_end goos path) as [base Hb].
    unfold ToLower. destruct (forallb isASCII (Ext goos path)); [|discriminate].
    intros H. apply bool_decide_eq_true in H. eauto.
  - intros (base & ext & -> & H).
    destruct (Ext_crd goos base ext H) as [-> ->].
    apply bool_decide_eq_true. reflexivity.
Qed.

(** X18.  The chord counter reads the files whose path ends with ".crd",
    in whatever mix of upper and lower case, and no others, on either
    kind of path separator. *)
Theorem X18_isSongFile :
  forall (goos : GOOS) (path : gostring),
    isSongFile goos path = true
    <-> exists base ext, path = base ++ ext /\ map lowerByte ext = str ".crd".
Proof. exact isSongFile_iff. Qed.

Lemma sanitizeFilename_no_separator (goos : GOOS) (name : gostring) :
  Forall (fun c => IsPathSeparator goos c = false) (sanitizeFilename name).
Proof.
  rewrite sanitizeFilename_filter. apply List.Forall_forall. intros c Hc.
  apply filter_In in Hc as [_ Hc]. unfold keptInName, sanitizeChars in Hc.
  apply negb_true_iff in Hc. simpl in Hc.
  repeat (apply orb_false_iff in Hc as [? Hc]).
  destruct goos; simpl; [assumption|]. apply orb_false_iff. auto.
Qed.

(** X17.  The name [writeTabs] gives a file has no path separator in it
    and ends with ".crd": in whatever directory the file is written, the
    chord counter takes it for a song file. *)
Theorem X17_written_files_are_read :
  forall (goos : GOOS) (dir : gostring) (tab : TabResult),
    Forall (fun c => IsPathSeparator goos c = false) (tabFilename tab)
    /\ Ext goos (dir ++ tabFilename tab) = str ".crd"
    /\ isSongFile goos (dir ++ tabFilename tab) = true.
Proof.
  intros goos dir tab. unfold tabFilename. split; [|split].
  - repeat (apply Forall_app; split);
      try apply sanitizeFilename_no_separator;
      destruct goos; repeat constructor.
  - rewrite !app_assoc.
    apply (Ext_crd goos _ (str ".crd")). reflexivity.
  - apply isSongFile_iff.
    exists (dir ++ sanitizeFilename (ArtistName tab) ++ str "-"
            ++ sanitizeFilename (SongName tab)), (str ".crd").
    rewrite <- !app_assoc. split; reflexivity.
Qed.

(** ** The text of a song file *)

Lemma string_of_uint_plain (d : Decimal.uint) :
  Contains (str (NilEmpty.string_of_uint d)) "[" = false.
Proof. induction d; simpl; try reflexivity; exact IHd. Qed.

Lemma formatInt_plain (n : Z) : Contains (formatInt n) "[" = false.
Proof.
  unfold formatInt, NilZero.string_of_int, NilZero.string_of_uint.
  destruct (Z.to_int n) as [d|d]; destruct d; try reflexivity;
    apply (string_of_uint_plain (_ d)) || (simpl; apply string_of_uint_plain).
Qed.

Lemma tabHeader_plain (tab : TabResult) :
  Contains (ArtistName tab) "[" = false ->
  Contains (SongName tab) "[" = false ->
  Contains (tabHeader tab) "[" = false.
Proof.
  intros Ha Hs. unfold tabHeader.
  rewrite !Contains_app, Ha, Hs, formatInt_plain. reflexivity.
Qed.

(** X19.  When the artist and the title have no opening bracket, the text
    written for a tab is the three header lines, each between braces,
    followed by the content of the tab without its markers. *)
Theorem X19_tabContent :
  forall tab : TabResult,
    Contains (ArtistName tab) "[" = false ->
    Contains (SongName tab) "[" = false ->
    tabContent tab
    = str "{artist: " ++ ArtistName tab ++ str "}" ++ newline
      ++ str "{title: " ++ SongName tab ++ str "}" ++ newline
      ++ str "{capo: " ++ formatInt (Capo tab) ++ str "}" ++ newline
      ++ stripMarkers (Content tab).
Proof.
  intros tab Ha Hs. unfold tabContent.
  rewrite (stripMarkers_plain _ _ (tabHeader_plain tab Ha Hs)).
  unfold tabHeader. rewrite <- !app_assoc. reflexivity.
Qed.

Lemma X19_witness :
  let tab := {| ArtistName := str "AC/DC"; SongName := str "T.N.T";
                Capo := 2; Content := str "[ch]A[/ch] [ch]E[/ch]" |} in
  Contains (ArtistName tab) "[" = false
  /\ Contains (SongName tab) "[" = false
  /\ tabContent tab
     = str "{artist: " ++ ArtistName tab ++ str "}" ++ newline
       ++ str "{title: " ++ SongName tab ++ str "}" ++ newline
       ++ str "{capo: " ++ formatInt (Capo tab) ++ str "}" ++ newline
       ++ stripMarkers (Content tab).
Proof.
  intros tab. split; [reflexivity|]. split; [reflexivity|].
  exact (X19_tabContent tab eq_refl eq_refl).
Defined.

(** ** White space around a chord *)

Lemma isSpace1_isSpace2 (x w : ascii) : isSpace1 w = true -> isSpace2 x w = false.
Proof.
  unfold isSpace1, isSpace2. intros H.
  assert (code w <= 32)%N.
  { apply orb_true_iff in H as [H|H].
    - apply andb_true_iff in H as [_ H]. apply N.leb_le in H. lia.
    - apply N.eqb_eq in H. lia. }
  replace (code w =? 133)%N with false by (symmetry; apply N.eqb_neq; lia).
  replace (code w =? 160)%N with false by (symmetry; apply N.eqb_neq; lia).
  apply andb_false_r.
Qed.

Lemma isSpace1_isSpace3_2 (x w y : ascii) :
  isSpace1 w = true -> isSpace3 x w y = false.
Proof.
  unfold isSpace1, isSpace3. intros H.
  assert (code w <= 32)%N.
  { apply orb_true_iff in H as [H|H].
    - apply andb_true_iff in H as [_ H]. apply N.leb_le in H. lia.
    - apply N.eqb_eq in H. lia. }
  cbv zeta.
  replace (code w =? 154)%N with false by (symmetry; apply N.eqb_neq; lia).
  replace (code w =? 128)%N with false by (symmetry; apply N.eqb_neq; lia).
  replace (code w =? 129)%N with false by (symmetry; apply N.eqb_neq; lia).
  rewrite !andb_false_r. reflexivity.
Qed.

Lemma isSpace1_isSpace3_3 (x y w : ascii) :
  isSpace1 w = true -> isSpace3 x y w = false.
Proof.
  unfold isSpace1, isSpace3. intros H.
  assert (code w <= 32)%N.
  { apply orb_true_iff in H as [H|H].
    - apply andb_true_iff in H as [_ H]. apply N.leb_le in H. lia.
    - apply N.eqb_eq in H. lia. }
  cbv zeta.
  replace (code w =? 128)%N with false by (symmetry; apply N.eqb_neq; lia).
  replace (code w =? 159)%N with false by (symmetry; apply N.eqb_neq; lia).
  replace (code w =? 168)%N with false by (symmetry; apply N.eqb_neq; lia).
  replace (code w =? 169)%N with false by (symmetry; apply N.eqb_neq; lia).
  replace (code w =? 175)%N with false by (symmetry; apply N.eqb_neq; lia).
  replace (128 <=? code w)%N with false by (symmetry; apply N.leb_gt; lia).
  rewrite !andb_false_r. reflexivity.
Qed.

(** One-byte white space in front is trimmed away, on both sides. *)
Lemma trimLeft_blank (ws s : gostring) :
  Forall (fun w => isSpace1 w = true) ws -> trimLeft (ws ++ s) = trimLeft s.
Proof.
  induction 1 as [|w ws Hw _ IH]; [reflexivity|].
  simpl. rewrite Hw. exact IH.
Qed.

Lemma trimLeftRev_blank (ws s : gostring) :
  Forall (fun w => isSpace1 w = true) ws -> trimLeftRev (ws ++ s) = trimLeftRev s.
Proof.
  induction 1 as [|w ws Hw _ IH]; [reflexivity|].
  simpl. rewrite Hw. exact IH.
Qed.

Lemma trimRight_blank (s ws : gostring) :
  Forall (fun w => isSpace1 w = true) ws -> trimRight (s ++ ws) = trimRight s.
Proof.
  intros H. unfold trimRight. rewrite rev_app_distr, trimLeftRev_blank;
    [reflexivity|].
  apply List.Forall_forall. intros w Hw. apply in_rev in Hw.
  rewrite List.Forall_forall in H. apply H, Hw.
Qed.

(** One-byte white space behind a string does not take part in a rune of
    the string. *)
Lemma trimLeft_app_blank_bounded (ws : gostring) (n : nat) :
  Forall (fun w => isSpace1 w = true) ws ->
  forall s : gostring, (length s <= n)%nat ->
    trimLeft (s ++ ws) = match trimLeft s with
                         | [] => []
                         | t => t ++ ws
                         end.
Proof.
  intros Hws.
  assert (Hall : trimLeft ws = []).
  { rewrite <- (app_nil_r ws). rewrite trimLeft_blank by exact Hws. reflexivity. }
  induction n as [|n IH]; intros s Hlen.
  - destruct s; [|simpl in Hlen; lia]. exact Hall.
  - destruct s as [|c1 [|c2 [|c3 s]]]; simpl in Hlen.
    + exact Hall.
    + simpl. destruct (isSpace1 c1); [exact Hall|].
      destruct ws as [|w1 ws]; [reflexivity|].
      apply Forall_cons_iff in Hws as [Hw1 Hws].
      rewrite (isSpace1_isSpace2 c1 w1 Hw1).
      destruct ws as [|w2 ws]; [reflexivity|].
      rewrite (isSpace1_isSpace3_2 c1 w1 w2 Hw1). reflexivity.
    + simpl. destruct (isSpace1 c1); [apply (IH [c2]); simpl; lia|].
      destruct (isSpace2 c1 c2); [exact Hall|].
      destruct ws as [|w1 ws]; [reflexivity|].
      apply Forall_cons_iff in Hws as [Hw1 Hws].
      rewrite (isSpace1_isSpace3_3 c1 c2 w1 Hw1). reflexivity.
    + simpl. destruct (isSpace1 c1); [apply (IH (c2 :: c3 :: s)); simpl; lia|].
      destruct (isSpace2 c1 c2); [apply (IH (c3 :: s)); simpl; lia|].
      destruct (isSpace3 c1 c2 c3); [apply IH; lia|reflexivity].
Qed.

Lemma TrimSpace_blank (ws1 s ws2 : gostring) :
  Forall (fun w => isSpace1 w = true) ws1 ->
  Forall (fun w => isSpace1 w = true) ws2 ->
  TrimSpace (ws1 ++ s ++ ws2) = TrimSpace s.
Proof.
  intros H1 H2. unfold TrimSpace.
  rewrite (trimLeft_blank _ _ H1).
  rewrite (trimLeft_app_blank_bounded ws2 (length s) H2 s) by lia.
  destruct (trimLeft s) as [|c t]; [reflexivity|].
  apply trimRight_blank, H2.
Qed.

(** X20.  Blanks, tabs, line feeds and carriage returns before and behind
    a chord do not change its canonical form. *)
Theorem X20_white_space_ignored :
  forall ws1 s ws2 : gostring,
    Forall (fun w => isSpace1 w = true) ws1 ->
    Forall (fun w => isSpace1 w = true) ws2 ->
    normalizeChord (ws1 ++ s ++ ws2) = normalizeChord s.
Proof.
  intros ws1 s ws2 H1 H2. unfold normalizeChord.
  rewrite (TrimSpace_blank ws1 s ws2 H1 H2). reflexivity.
Qed.

Lemma X20_witness :
  Forall (fun w => isSpace1 w = true) (str "  ")
  /\ Forall (fun w => isSpace1 w = true) [" "%char; "009"%char; "013"%char; "010"%char]
  /\ normalizeChord (str "  " ++ str "am/c" ++ [" "%char; "009"%char; "013"%char; "010"%char])
     = normalizeChord (str "am/c").
Proof.
  assert (H1 : Forall (fun w => isSpace1 w = true) (str "  "))
    by (repeat constructor).
  assert (H2 : Forall (fun w => isSpace1 w = true)
                      [" "%char; "009"%char; "013"%char; "010"%char])
    by (repeat constructor).
  split; [exact H1|]. split; [exact H2|].
  exact (X20_white_space_ignored _ (str "am/c") _ H1 H2).
Defined.

(** [trimLeftRev] returns an end piece of its argument. *)
Lemma trimLeftRev_suffix_bounded (n : nat) :
  forall a : gostring, (length a <= n)%nat -> exists p, a = p ++ trimLeftRev a.
Proof.
  induction n as [|n IH]; intros a Hlen.
  - destruct a; [|simpl in Hlen; lia]. exists []. reflexivity.
  - destruct a as [|c1 s1]; [exists []; reflexivity|]. simpl in Hlen. simpl.
    destruct (isSpace1 c1).
    { destruct (IH s1) as [p Hp]; [lia|]. exists (c1 :: p). simpl. congruence. }
    destruct s1 as [|c2 s2]; [exists []; reflexivity|]. simpl in Hlen.
    destruct (isSpace2 c2 c1).
    { destruct (IH s2) as [p Hp]; [lia|]. exists (c1 :: c2 :: p). simpl. congruence. }
    destruct s2 as [|c3 s3]; [exists []; reflexivity|]. simpl in Hlen.
    destruct (isSpace3 c3 c2 c1); [|exists []; reflexivity].
    destruct (IH s3) as [p Hp]; [lia|]. exists (c1 :: c2 :: c3 :: p). simpl. congruence.
Qed.

Lemma Contains_false (s : gostring) (sep : ascii) :
  Contains s sep = false <-> ~ In sep s.
Proof.
  unfold Contains. split.
  - intros H Hin.
    assert (E : existsb (byte_eqb sep) s = true).
    { apply existsb_exists. exists sep. split; [exact Hin|]. apply byte_eqb_eq. reflexivity. }
    congruence.
  - intros H. destruct (existsb (byte_eqb sep) s) eqn:E; [|reflexivity].
    apply existsb_exists in E as (x & Hx & E). apply byte_eqb_eq in E as <-.
    contradiction.
Qed.

Lemma Contains_trimRight (a : gostring) (sep : ascii) :
  Contains a sep = false -> Contains (trimRight a) sep = false.
Proof.
  rewrite !Contains_false. intros H Hin. apply H. unfold trimRight in Hin.
  apply in_rev in Hin.
  destruct (trimLeftRev_suffix_bounded (length (rev a)) (rev a)) as [p Hp]; [lia|].
  apply in_rev. rewrite Hp. apply in_app_iff. right. exact Hin.
Qed.

Lemma Contains_TrimSpace (a : gostring) (sep : ascii) :
  Contains a sep = false -> Contains (TrimSpace a) sep = false.
Proof.
  intros H. unfold TrimSpace. apply Contains_trimRight, Contains_trimLeft, H.
Qed.

(** X21.  A string without a slash is trimmed and normalized as one part.
    A string with one slash is cut there: the chord part is trimmed on the
    left, the inversion part on the right, and each is normalized on its
    own; an inversion part of white space only is dropped with the
    slash. *)
Theorem X21_one_slash :
  forall a b : gostring,
    Contains a "/" = false -> Contains b "/" = false ->
    normalizeChord a = normalizeChordPart (TrimSpace a)
    /\ normalizeChord (a ++ str "/" ++ b)
       = match trimRight b with
         | [] => normalizeChordPart (trimLeft a)
         | _ :: _ => normalizeChordPart (trimLeft a) ++ str "/"
                     ++ normalizeChordPart (trimRight b)
         end.
Proof.
  intros a b Ha Hb. split.
  - unfold normalizeChord. pose proof (Contains_TrimSpace a "/" Ha) as H.
    destruct (TrimSpace a) as [|c t]; [reflexivity|]. rewrite H. reflexivity.
  - unfold normalizeChord. change (str "/" ++ b) with ("/"%char :: b).
    rewrite TrimSpace_slash.
    destruct (trimLeft a ++ "/"%char :: trimRight b) as [|c t] eqn:E;
      [destruct (trimLeft a); discriminate|].
    rewrite <- E, Contains_slash.
    rewrite (Split_first _ _ _ (Contains_trimLeft a "/" Ha)).
    rewrite (Split_no_sep _ _ (Contains_trimRight b "/" Hb)).
    reflexivity.
Qed.

Lemma X21_witness :
  Contains (str " bm") "/" = false
  /\ Contains (str "d ") "/" = false
  /\ normalizeChord (str " bm") = normalizeChordPart (TrimSpace (str " bm"))
  /\ normalizeChord (str " bm" ++ str "/" ++ str "d ")
     = match trimRight (str "d ") with
       | [] => normalizeChordPart (trimLeft (str " bm"))
       | _ :: _ => normalizeChordPart (trimLeft (str " bm")) ++ str "/"
                   ++ normalizeChordPart (trimRight (str "d "))
       end.
Proof.
  split; [reflexivity|]. split; [reflexivity|].
  exact (X21_one_slash (str " bm") (str "d ") eq_refl eq_refl).
Defined.

(** ** The tokens of a line, word by word *)

(** Before a byte that the pattern cannot read and that is no word byte,
    the pattern matches as it does at the end of the text. *)
Lemma run_before_sep (r : regex) (sp : ascii) (t : gostring) :
  consumes r sp = false -> isWordByte sp = false ->
  forall prev s,
    run r prev (s ++ sp :: t) = map (extendRest (sp :: t)) (run r prev s).
Proof.
  intros Hc Hw.
  induction r as [|c|cs|r1 IH1 r2 IH2|r1 IH1 r2 IH2|r1 IH1| |];
    intros prev s; simpl in Hc; simpl run.
  - reflexivity.
  - destruct s as [|x s]; simpl; [rewrite Hc; reflexivity|].
    destruct (byte_eqb x c); reflexivity.
  - destruct s as [|x s]; simpl; [rewrite Hc; reflexivity|].
    destruct (existsb (byte_eqb x) cs); reflexivity.
  - apply orb_false_iff in Hc as [H1 H2].
    rewrite (IH1 H1). generalize (run r1 prev s) as l.
    induction l as [|m1 l IHl]; simpl; [reflexivity|].
    rewrite map_app, IHl. f_equal.
    rewrite (IH2 H2), !map_map. apply map_ext. intros m2. reflexivity.
  - apply orb_false_iff in Hc as [H1 H2].
    rewrite (IH1 H1), (IH2 H2), map_app. reflexivity.
  - rewrite (IH1 Hc), map_app. reflexivity.
  - destruct s as [|x s]; simpl.
    + rewrite Hw. destruct (isWord prev); reflexivity.
    + destruct (xorb (isWord prev) (isWordByte x)); reflexivity.
  - destruct prev; reflexivity.
Qed.

(** Without [^], the byte before matters through its being a word byte
    only. *)
Lemma run_prev_side (r : regex) :
  noBeginText r = true ->
  forall prev prev' s, isWord prev = isWord prev' -> run r prev s = run r prev' s.
Proof.
  induction r as [|c|cs|r1 IH1 r2 IH2|r1 IH1 r2 IH2|r1 IH1| |];
    simpl; intros H prev prev' s Hp; try reflexivity; try discriminate.
  - apply andb_true_iff in H as [H1 H2].
    rewrite (IH1 H1 prev prev' s Hp). apply flat_map_ext. intros m1.
    f_equal. apply (IH2 H2). unfold prevAfter.
    destruct (last m1.1); [reflexivity|exact Hp].
  - apply andb_true_iff in H as [H1 H2].
    rewrite (IH1 H1 prev prev' s Hp), (IH2 H2 prev prev' s Hp). reflexivity.
  - rewrite (IH1 H prev prev' s Hp). reflexivity.
  - rewrite Hp. reflexivity.
Qed.

Lemma findAllFrom_prev_side (r : regex) prev prev' skip adjacent (s : gostring) :
  noBeginText r = true -> isWord prev = isWord prev' ->
  findAllFrom r prev skip adjacent s = findAllFrom r prev' skip adjacent s.
Proof.
  intros H Hp. destruct s as [|c s], skip; simpl; try reflexivity;
    unfold matchAt; rewrite (run_prev_side r H prev prev' _ Hp); reflexivity.
Qed.

Lemma run_nil_empty (r : regex) prev :
  ~ In [] (lang r) -> run r prev [] = [].
Proof.
  intros Hl. destruct (run r prev []) as [|[w rest] l] eqn:E; [reflexivity|].
  exfalso. apply Hl.
  destruct (run_sound r prev [] w rest) as [Hs Hw]; [rewrite E; left; reflexivity|].
  symmetry in Hs. apply app_eq_nil in Hs as [-> _]. exact Hw.
Qed.

Lemma matchAt_before_sep (r : regex) (sp : ascii) (t : gostring) prev s :
  consumes r sp = false -> isWordByte sp = false ->
  matchAt r prev (s ++ sp :: t)
  = option_map (extendRest (sp :: t)) (matchAt r prev s).
Proof.
  intros Hc Hw. unfold matchAt. rewrite (run_before_sep r sp t Hc Hw).
  destruct (run r prev s); reflexivity.
Qed.

(** The matches before such a byte and the matches behind it. *)
Lemma findAllFrom_before_sep (r : regex) (sp : ascii) (t : gostring) :
  consumes r sp = false -> isWordByte sp = false -> ~ In [] (lang r) ->
  forall s prev skip adjacent,
    (skip <= length s)%nat ->
    findAllFrom r prev skip adjacent (s ++ sp :: t)
    = findAllFrom r prev skip adjacent s ++ findAllFrom r (Some sp) 0 false t.
Proof.
  intros Hc Hw Hl. induction s as [|c s IH]; intros prev skip adjacent Hskip.
  - simpl in Hskip. destruct skip; [|lia].
    change ([] ++ sp :: t) with (sp :: t).
    assert (E1 : matchAt r prev (sp :: t) = None).
    { pose proof (matchAt_before_sep r sp t prev [] Hc Hw) as M.
      cbn [app] in M. rewrite M. unfold matchAt.
      rewrite (run_nil_empty r prev Hl). reflexivity. }
    assert (E2 : matchAt r prev [] = None).
    { unfold matchAt. rewrite (run_nil_empty r prev Hl). reflexivity. }
    simpl. rewrite E1, E2. reflexivity.
  - destruct skip as [|k].
    + change ((c :: s) ++ sp :: t) with (c :: s ++ sp :: t).
      cbn [findAllFrom].
      change (c :: s ++ sp :: t) with ((c :: s) ++ sp :: t).
      rewrite (matchAt_before_sep r sp t prev (c :: s) Hc Hw).
      destruct (matchAt r prev (c :: s)) as [[w rest]|] eqn:E; cbn [option_map extendRest fst snd].
      * pose proof (matchAt_nonempty r prev (c :: s) w rest Hl E) as Hne.
        apply matchAt_sound in E as [E _].
        destruct w as [|x w]; [congruence|].
        assert (Hk : (length (x :: w) - 1 <= length s)%nat).
        { apply (f_equal (@length ascii)) in E. simpl in E.
          rewrite length_app in E. simpl. lia. }
        cbn [app]. rewrite (IH _ _ _ Hk). reflexivity.
      * cbn [app]. apply IH. lia.
    + simpl in Hskip. simpl. apply IH. lia.
Qed.

Lemma chordRegex_nonempty : ~ In [] (lang chordRegex).
Proof.
  intros H. pose proof chordRegex_token_check as C.
  rewrite forallb_forall in C. apply C in H. discriminate H.
Qed.

Lemma chordRegex_consumes (sp : ascii) :
  endsChord sp = true -> sp <> "#"%char -> consumes chordRegex sp = false.
Proof.
  destruct sp as [[] [] [] [] [] [] [] []]; vm_compute; intros H1 H2;
    (reflexivity || discriminate H1 || (exfalso; apply H2; reflexivity)).
Qed.

Lemma FindAllString_words (sp : ascii) (line1 line2 : gostring) :
  endsChord sp = true -> sp <> "#"%char ->
  FindAllString chordRegex (line1 ++ sp :: line2)
  = FindAllString chordRegex line1 ++ FindAllString chordRegex line2.
Proof.
  intros He Hs.
  assert (Hw : isWordByte sp = false).
  { unfold endsChord in He. apply andb_true_iff in He as [He _].
    apply negb_true_iff, He. }
  unfold FindAllString.
  rewrite (findAllFrom_before_sep chordRegex sp line2
             (chordRegex_consumes sp He Hs) Hw chordRegex_nonempty)
    by (simpl; lia).
  f_equal. apply findAllFrom_prev_side; [reflexivity|]. simpl. exact Hw.
Qed.

(** X22.  A byte that is no word byte, no sharp and no slash cuts the line
    in two for the recognizer: the tokens of the line are the tokens of the
    text before it followed by the tokens of the text behind it.  With a
    blank for that byte, the tokens of a line are those of its words. *)
Theorem X22_tokens_word_by_word :
  forall (sp : ascii) (line1 line2 : gostring),
    endsChord sp = true -> sp <> "#"%char ->
    FindAllString chordRegex (line1 ++ sp :: line2)
    = FindAllString chordRegex line1 ++ FindAllString chordRegex line2.
Proof. exact FindAllString_words. Qed.

Lemma X22_witness :
  endsChord " " = true
  /\ " "%char <> "#"%char
  /\ FindAllString chordRegex (str "Am7 x" ++ " "%char :: str "C#/G D")
     = FindAllString chordRegex (str "Am7 x") ++ FindAllString chordRegex (str "C#/G D").
Proof.
  assert (H : " "%char <> "#"%char) by discriminate.
  split; [reflexivity|]. split; [exact H|].
  exact (X22_tokens_word_by_word " " (str "Am7 x") (str "C#/G D") eq_refl H).
Defined.

(** A blank behind the text does not change what the classifier says. *)
Lemma skipLine_before_blank (line1 line2 : gostring) :
  line1 <> [] -> skipLine (line1 ++ " "%char :: line2) = skipLine line1.
Proof.
  intros Hne. destruct line1 as [|c rest]; [congruence|].
  unfold skipLine, MatchString. cbn [app HasPrefix str list_ascii_of_string].
  rewrite !HasPrefix_nil, !andb_true_r.
  destruct (byte_eqb c "{"); [reflexivity|].
  destruct (byte_eqb c "["); [reflexivity|]. cbn [orb].
  unfold matchFrom. fold matchFrom. rewrite !tablatureRegex_inside.
  remember (existsb (byte_eqb c) (str "eBgdAE")) as b eqn:Eb.
  unfold matchAt, tablatureRegex. cbn. cbn in Eb. rewrite <- Eb.
  destruct b; [|reflexivity]. cbn.
  destruct rest as [|d rest]; [reflexivity|]. cbn.
  destruct (byte_eqb d "|"); reflexivity.
Qed.

Lemma bare_letter_tokens (root : ascii) (line1 line2 : gostring) :
  In root (range "A" "G") ->
  FindAllString chordRegex (line1 ++ " "%char :: root :: " "%char :: line2)
  = FindAllString chordRegex line1 ++ [root] :: FindAllString chordRegex line2.
Proof.
  intros Hroot.
  rewrite (FindAllString_words " " line1) by (reflexivity || discriminate).
  f_equal.
  change (root :: " "%char :: line2) with ([root] ++ " "%char :: line2).
  rewrite (FindAllString_words " " [root]) by (reflexivity || discriminate).
  unfold range in Hroot. simpl in Hroot.
  repeat (destruct Hroot as [<-|Hroot]; [reflexivity|]). destruct Hroot.
Qed.

Lemma fold_record_key (keys : list gostring) (k : gostring) :
  k <> [] -> In k keys -> is_Some (fold_left record keys ∅ !! k).
Proof.
  intros Hk Hin. rewrite (record_lookup keys k Hk).
  apply (count_occ_In (fun x y : gostring => decide (x = y))) in Hin.
  fold (occurrences keys k) in Hin.
  destruct (occurrences keys k); [lia|]. eexists. reflexivity.
Qed.

(** X24.  A letter A to G that stands alone between two blanks is a token
    of the line, a chord with nothing but its root, whatever the rest of
    the line is, provided the classifier does not skip the line; the line
    is skipped exactly when the text before the first of the two blanks is
    not empty and is skipped itself.  On a line that is scanned the letter
    is counted: it is a key of the table of every corpus that has the
    line.  The article "A" of a lyric line is counted as the chord A. *)
Theorem X24_bare_letter :
  forall (root : ascii) (line1 line2 : gostring) (files : list (list gostring)),
    In root (range "A" "G") ->
    skipLine (line1 ++ " "%char :: root :: " "%char :: line2)
    = match line1 with
      | [] => false
      | _ :: _ => skipLine line1
      end
    /\ (skipLine (line1 ++ " "%char :: root :: " "%char :: line2) = false ->
        extractTokens (line1 ++ " "%char :: root :: " "%char :: line2)
        = FindAllString chordRegex line1 ++ [root] :: FindAllString chordRegex line2
        /\ (In (line1 ++ " "%char :: root :: " "%char :: line2) (concat files) ->
            In [root] (recordedKeys files)
            /\ is_Some (scanCorpus files !! [root])))
    /\ (skipLine (line1 ++ " "%char :: root :: " "%char :: line2) = true ->
        extractTokens (line1 ++ " "%char :: root :: " "%char :: line2) = []).
Proof.
  intros root line1 line2 files Hroot.
  split; [|split].
  - destruct line1 as [|c line1]; [|apply skipLine_before_blank; discriminate].
    unfold skipLine, MatchString.
    cbn [app HasPrefix str list_ascii_of_string]. cbn [orb].
    unfold matchFrom. fold matchFrom. rewrite tablatureRegex_inside. reflexivity.
  - intros Hskip.
    assert (Ht : extractTokens (line1 ++ " "%char :: root :: " "%char :: line2)
                 = FindAllString chordRegex line1
                   ++ [root] :: FindAllString chordRegex line2).
    { unfold extractTokens. rewrite Hskip. apply bare_letter_tokens, Hroot. }
    split; [exact Ht|]. intros Hin.
    assert (Hk : In [root] (recordedKeys files)).
    { rewrite recordedKeys_tokens. unfold corpusTokens.
      apply in_flat_map. eexists. split; [exact Hin|].
      rewrite Ht. apply in_app_iff. right. left. reflexivity. }
    split; [exact Hk|].
    rewrite scanCorpus_record. apply fold_record_key; [discriminate|exact Hk].
  - intros Hskip. unfold extractTokens. rewrite Hskip. reflexivity.
Qed.

Lemma X24_witness :
  let line := str "What" ++ " "%char :: "A"%char :: " "%char :: str "day" in
  let files := [[str "{title: x}"; line]] in
  In "A"%char (range "A" "G")
  /\ skipLine line = false
  /\ In line (concat files)
  /\ extractTokens line = [["A"%char]]
  /\ scanCorpus files !! ["A"%char] = Some 1
  /\ (skipLine line
      = match str "What" with
        | [] => false
        | _ :: _ => skipLine (str "What")
        end
      /\ (skipLine line = false ->
          extractTokens line
          = FindAllString chordRegex (str "What")
            ++ ["A"%char] :: FindAllString chordRegex (str "day")
          /\ (In line (concat files) ->
              In ["A"%char] (recordedKeys files)
              /\ is_Some (scanCorpus files !! ["A"%char])))
      /\ (skipLine line = true -> extractTokens line = [])).
Proof.
  intros line files.
  assert (H : In "A"%char (range "A" "G")) by (vm_compute; tauto).
  split; [exact H|]. split; [reflexivity|].
  split; [right; left; reflexivity|].
  split; [reflexivity|]. split; [vm_compute; reflexivity|].
  exact (X24_bare_letter "A" (str "What") (str "day") files H).
Defined.

(** X23.  The file name does not tell the tabs apart.  The bytes that
    [sanitizeFilename] removes make no difference, and the hyphen between
    artist and title may as well belong to either: two such tabs get the
    same file name. *)
Theorem X23_file_name_collisions :
  forall (c : ascii) (x y z content1 content2 : gostring) (capo1 capo2 : Z),
    In c sanitizeChars ->
    tabFilename {| ArtistName := c :: x; SongName := z;
                   Capo := capo1; Content := content1 |}
    = tabFilename {| ArtistName := x; SongName := z;
                     Capo := capo2; Content := content2 |}
    /\ tabFilename {| ArtistName := x ++ str "-" ++ y; SongName := z;
                      Capo := capo1; Content := content1 |}
       = tabFilename {| ArtistName := x; SongName := y ++ str "-" ++ z;
                        Capo := capo2; Content := content2 |}.
Proof.
  intros c x y z content1 content2 capo1 capo2 Hc.
  unfold tabFilename. cbn [ArtistName SongName].
  rewrite !sanitizeFilename_filter. split.
  - cbn [List.filter]. replace (keptInName c) with false; [reflexivity|].
    symmetry. unfold keptInName. apply negb_false_iff, existsb_exists.
    exists c. split; [exact Hc|]. apply byte_eqb_eq. reflexivity.
  - rewrite !List.filter_app. change (List.filter keptInName (str "-")) with (str "-").
    rewrite <- !app_assoc. reflexivity.
Qed.

Lemma X23_witness :
  In "/"%char sanitizeChars
  /\ tabFilename {| ArtistName := "/"%char :: str "a"; SongName := str "c";
                    Capo := 0; Content := str "C" |}
     = tabFilename {| ArtistName := str "a"; SongName := str "c";
                      Capo := 1; Content := str "D" |}
  /\ tabFilename {| ArtistName := str "a" ++ str "-" ++ str "b"; SongName := str "c";
                    Capo := 0; Content := str "C" |}
     = tabFilename {| ArtistName := str "a"; SongName := str "b" ++ str "-" ++ str "c";
                      Capo := 1; Content := str "D" |}.
Proof.
  assert (H : In "/"%char sanitizeChars) by (vm_compute; tauto).
  split; [exact H|].
  exact (X23_file_name_collisions "/" (str "a") (str "b") (str "c")
           (str "C") (str "D") 0 1 H).
Defined.
